(** * hdcp-gen-key: the HDCP 1.x key-derivation core of [src/hdcp.cpp]

    A shallow embedding of the functions of [hdcp.cpp] that carry the
    numeric contracts of the tool: the KSV predicate [check_ksv], the two
    derivations [generate_source] and [generate_sink], the random KSV
    generator [random_ksv] and the hexadecimal codecs [bitset_to_hex] and
    [ksv_string_to_bitset] (with [char_to_uint8_t]).

    Conventions of the embedding.
    - A [std::bitset<bits>] is a [Z]; bit [i] of the bitset is
      [Z.testbit v i], bit 0 being the least significant one.  A value
      stored in a bitset of width [bits] lies in [0, 2^bits).
    - A [std::uint64_t] is a [Z] with the wrap-around of every addition
      written out ([wrap64]).
    - [std::array], [std::vector] and [std::string] are lists.  Their
      [operator[]] is unchecked in C++: it is modelled by a lookup that
      fails ([None]) out of range, so that a computation that returns
      [Some] performed no out-of-range access.
    - A counted [for] loop is [for_loop] over the list of its indices, in
      the option monad. *)

From Stdlib Require Import ZArith Ascii String Lia Permutation.
From stdpp Require Import base tactics option numbers list.

Local Open Scope Z_scope.

(** ** Loops and machine integers *)

(** [for (i = i0; i < n; i++) body] with the loop state threaded through
    and failure propagated. *)
Fixpoint for_loop {St : Type} (idxs : list nat)
    (body : nat → St → option St) (s : St) : option St :=
  match idxs with
  | [] => Some s
  | i :: rest => s' ← body i s; for_loop rest body s'
  end.

(** Arithmetic on [std::uint64_t] and [std::size_t] is modulo [2^64], on
    [std::uint8_t] modulo [2^8]. *)
Definition wrap64 (x : Z) : Z := x mod 2 ^ 64.
Definition wrap8 (x : Z) : Z := x mod 2 ^ 8.

(** [a[i] = x] on a [std::array] or a [std::string]: unchecked in C++,
    defined for [i] below the size. *)
Definition store {A : Type} (a : list A) (i : nat) (x : A) : option (list A) :=
  if (i <? length a)%nat then Some (<[i := x]> a) else None.

(** ** [std::bitset<bits>] *)

(** A well-formed value of [std::bitset<bits>]. *)
Definition bitset_wf (bits : nat) (v : Z) : bool :=
  (0 <=? v) && (v <? 2 ^ Z.of_nat bits).

(** [std::bitset<bits>(unsigned long long)]: the low [bits] bits are kept. *)
Definition to_bitset (bits : nat) (x : Z) : Z := x mod 2 ^ Z.of_nat bits.

(** [b.to_ullong()] for a bitset of at most 64 bits. *)
Definition to_ullong (v : Z) : Z := v.

(** [b[pos]] read: unchecked in C++, defined for [pos < bits]. *)
Definition bitset_get (bits : nat) (v : Z) (pos : nat) : option bool :=
  if (pos <? bits)%nat then Some (Z.testbit v (Z.of_nat pos)) else None.

(** [b[pos] = x] write. *)
Definition bitset_set (bits : nat) (v : Z) (pos : nat) (x : bool) : option Z :=
  if (pos <? bits)%nat
  then Some (if x then Z.setbit v (Z.of_nat pos) else Z.clearbit v (Z.of_nat pos))
  else None.

(** [b.count()]: the number of set bits among the [bits] positions. *)
Definition bitset_count (bits : nat) (v : Z) : nat :=
  length (filter (λ pos, Z.testbit v (Z.of_nat pos) = true) (seq 0 bits)).

(** ** [check_ksv] (hdcp.cpp, 299-302) *)

Definition check_ksv (ksv : Z) : bool :=
  negb (bitset_count 40 ksv =? 20)%nat.

(** ** [generate_source] and [generate_sink] (hdcp.cpp, 156-196) *)

Definition generate_source (ksv : Z) (key : list Z) : option (list Z) :=
  for_loop (seq 0 40) (λ i result,
    temp ← for_loop (seq 0 40) (λ z temp,
      b ← bitset_get 40 ksv z;
      if b : bool
      then k ← key !! (z * 40 + i)%nat; Some (wrap64 (temp + to_ullong k))
      else Some temp) 0;
    let temp := Z.land temp 0xffffffffffffff in
    store result i (to_bitset 56 temp)) (replicate 40 0).

Definition generate_sink (ksv : Z) (key : list Z) : option (list Z) :=
  for_loop (seq 0 40) (λ i result,
    temp ← for_loop (seq 0 40) (λ z temp,
      b ← bitset_get 40 ksv z;
      if b : bool
      then k ← key !! (i * 40 + z)%nat; Some (wrap64 (temp + to_ullong k))
      else Some temp) 0;
    let temp := Z.land temp 0xffffffffffffff in
    store result i (to_bitset 56 temp)) (replicate 40 0).

(** A well-formed Master Key Matrix: 1600 values of [std::bitset<56>]. *)
Definition matrix_wf (key : list Z) : bool :=
  (length key =? 1600)%nat && forallb (bitset_wf 56) key.

(** The sum the derivations are specified by, as an unbounded integer:
    the matrix entries at the linear indices [idx z], over the bit
    positions [z] among [zs] at which the KSV is set; [selected_sum] is
    the sum over all 40 positions. *)
Definition partial_sum (ksv : Z) (key : list Z) (idx : nat → nat)
    (zs : list nat) : Z :=
  foldr Z.add 0
    (map (λ z, default 0 (key !! idx z))
         (filter (λ z, Z.testbit ksv (Z.of_nat z) = true) zs)).

Definition selected_sum (ksv : Z) (key : list Z) (idx : nat → nat) : Z :=
  partial_sum ksv key idx (seq 0 40).

(** The body of the inner loop of both derivations, for the linear index
    [idx z]. *)
Definition accumulate_step (ksv : Z) (key : list Z) (idx : nat → nat)
    (z : nat) (temp : Z) : option Z :=
  b ← bitset_get 40 ksv z;
  if b : bool
  then k ← key !! idx z; Some (wrap64 (temp + to_ullong k))
  else Some temp.

(** The common shape of the two derivations, the linear index of output
    slot [i] and bit position [z] being [idx i z]. *)
Definition derive (ksv : Z) (key : list Z) (idx : nat → nat → nat)
    : option (list Z) :=
  for_loop (seq 0 40) (λ i result,
    temp ← for_loop (seq 0 40) (accumulate_step ksv key (idx i)) 0;
    let temp := Z.land temp 0xffffffffffffff in
    store result i (to_bitset 56 temp)) (replicate 40 0).

(** ** [bitset_to_hex] (hdcp.cpp, 36-69) *)

Definition hex_map : list ascii := list_ascii_of_string "0123456789abcdef".

Definition bitset_to_hex (bits : nat) (num : Z) : option (list ascii) :=
  let num_hex_chars := (bits / 4)%nat in
  for_loop (seq 0 num_hex_chars) (λ i result,
    nibble_value ← for_loop (seq 0 4) (λ k nibble_value,
      let bit_in_num_index :=
        Z.to_nat (wrap64 ((Z.of_nat bits - 1) - Z.of_nat i * 4 - Z.of_nat k)) in
      b ← bitset_get bits num bit_in_num_index;
      Some (if b : bool
            then wrap8 (Z.lor nibble_value (Z.shiftl 1 (3 - Z.of_nat k)))
            else nibble_value)) 0;
    c ← hex_map !! Z.to_nat nibble_value;
    store result i c) (replicate num_hex_chars " "%char).

(** ** [char_to_uint8_t] (hdcp.cpp, 216-272) *)

Definition char_to_uint8_t (c : ascii) : Z :=
  match c with
  | "0"%char => 0
  | "1"%char => 1
  | "2"%char => 2
  | "3"%char => 3
  | "4"%char => 4
  | "5"%char => 5
  | "6"%char => 6
  | "7"%char => 7
  | "8"%char => 8
  | "9"%char => 9
  | "a"%char => 10
  | "b"%char => 11
  | "c"%char => 12
  | "d"%char => 13
  | "e"%char => 14
  | "f"%char => 15
  | _ => 0
  end.

(** The character class [0-9a-f], by character code. *)
Definition is_lower_hex (c : ascii) : bool :=
  let n := nat_of_ascii c in
  ((48 <=? n) && (n <=? 57) || (97 <=? n) && (n <=? 102))%nat.

(** ** [ksv_string_to_bitset] (hdcp.cpp, 76-150) *)

(** [s[pos]] read on a [std::string]: a character of the string for
    [pos < s.size()], the terminating null character for
    [pos == s.size()], undefined beyond. *)
Definition string_at (s : list ascii) (pos : nat) : option ascii :=
  match s !! pos with
  | Some c => Some c
  | None => if (pos =? length s)%nat then Some "000"%char else None
  end.

(** The local [string_to_convert] after the [if]/[else] of lines 85-98. *)
Definition string_to_convert (s : list ascii) : list ascii :=
  if (length s <? 15)%nat then
    let padded :=
      foldl (λ acc _, acc ++ ["0"%char]) [] (seq 0 (15 - length s)) in
    rev (padded ++ s)
  else
    rev s.

(** Assignment to the 4-bit field [u<k>] of the union [ksv_layout], seen
    through its other member [ksv_number].  The sixteen fields are laid out
    from the least significant nibble of the 64-bit integer upwards (two
    fields per byte, low nibble first, bytes in little-endian order), which
    is the layout of the compilers and targets the tool is built for; the
    stored value is truncated to the 4 bits of the field. *)
Definition set_nibble (k : nat) (v : Z) (ksv_number : Z) : Z :=
  let w := 16 ^ Z.of_nat k in
  ksv_number - ((ksv_number / w) mod 16) * w + (v mod 16) * w.

(** [kl.klb.u<k> = char_to_uint8_t(string_to_convert[k])]. *)
Definition assign_u (k : nat) (stc : list ascii) (ksv_number : Z) : option Z :=
  c ← string_at stc k; Some (set_nibble k (char_to_uint8_t c) ksv_number).

Definition ksv_string_to_bitset (bits : nat) (s : list ascii) : option Z :=
  let stc := string_to_convert s in
  let kl := 0 in
  kl ← assign_u 0 stc kl;
  kl ← assign_u 1 stc kl;
  kl ← assign_u 2 stc kl;
  kl ← assign_u 3 stc kl;
  kl ← assign_u 4 stc kl;
  kl ← assign_u 5 stc kl;
  kl ← assign_u 6 stc kl;
  kl ← assign_u 7 stc kl;
  kl ← assign_u 8 stc kl;
  kl ← assign_u 9 stc kl;
  kl ← assign_u 10 stc kl;
  kl ← assign_u 11 stc kl;
  kl ← assign_u 12 stc kl;
  kl ← assign_u 13 stc kl;
  kl ← assign_u 14 stc kl;
  kl ← assign_u 15 stc kl;
  Some (to_bitset bits kl).

(** The value of a string read as a hexadecimal number, most significant
    digit first, every character counting for its [char_to_uint8_t]
    nibble. *)
Definition hex_value (s : list ascii) : Z :=
  foldl (λ acc c, 16 * acc + char_to_uint8_t c) 0 s.

(** ** [random_ksv] (hdcp.cpp, 198-214)

    [std::shuffle] with a generator seeded from [std::random_device] is a
    parameter of the model: any function on index vectors. *)

Definition random_ksv (shuffle : list nat → list nat) : option Z :=
  let bs := 0x00000fffff in
  let indices := shuffle (seq 0 40) in
  for_loop (seq 0 40) (λ i shuffled_bs,
    idx ← indices !! i;
    b ← bitset_get 40 bs idx;
    bitset_set 40 shuffled_bs i b) 0.

(** The matrix [T] with [T[i*40 + z] = M[z*40 + i]]. *)
Definition transpose (M : list Z) : list Z :=
  map (λ n, default 0 (M !! (n mod 40 * 40 + n / 40)%nat)) (seq 0 1600).

(** The value of a list of nibbles, least significant first: the integer
    whose 4-bit field [k] holds the [k]-th nibble. *)
Definition le_value (digits : list Z) : Z :=
  foldr (λ d acc, d + 16 * acc) 0 digits.

(** The [k]-th nibble of an integer, and the character [bitset_to_hex]
    writes for a nibble. *)
Definition nibble_at (num : Z) (k : nat) : Z := (num / 16 ^ Z.of_nat k) mod 16.

Definition hex_digit (n : Z) : ascii := default " "%char (hex_map !! Z.to_nat n).

(** ** Text

    A [std::string] is a list of characters.  [lit] reads a C++ string
    literal: in its argument a backslash followed by [n] stands for the
    newline and a backslash followed by [q] for the double quote (written
    backslash, double quote in C++); every other character stands for
    itself. *)

Definition nl : ascii := "010"%char.
Definition dq : ascii := "034"%char.

Fixpoint lit_chars (s : list ascii) : list ascii :=
  match s with
  | "\"%char :: "n"%char :: rest => nl :: lit_chars rest
  | "\"%char :: "q"%char :: rest => dq :: lit_chars rest
  | c :: rest => c :: lit_chars rest
  | [] => []
  end.

Definition lit (s : string) : list ascii := lit_chars (list_ascii_of_string s).

(** [s == "..."] on a [std::string]. *)
Definition str_eq (s : list ascii) (l : string) : bool :=
  String.eqb (string_of_list_ascii s) l.

(** [for (auto const &x : xs) body]. *)
Fixpoint for_each {A St : Type} (xs : list A)
    (body : A → St → option St) (s : St) : option St :=
  match xs with
  | [] => Some s
  | x :: rest => s' ← body x s; for_each rest body s'
  end.

(** ** [get_key_array] (hdcp.cpp, 281-297) *)

Definition get_key_array (N : nat) (arr : list Z) : option (list ascii) :=
  for_loop (seq 0 N) (λ i result,
    x ← arr !! i;
    h ← bitset_to_hex 56 x;
    let result := result ++ h in
    if ((i + 1) mod 5 =? 0)%nat
    then Some (result ++ lit "\n")
    else Some (result ++ lit " ")) [].

(** ** [formatted_out_type] (hdcp.h, 106-125) and [string_to_fot]
    (hdcp.cpp, 579-630) *)

Inductive formatted_out_type : Type :=
  | TEXT_INFORMATIONAL
  | TEXT_SOURCE_ONLY
  | TEXT_SINK_ONLY
  | TEXT_SOURCE_KSV_ONLY
  | TEXT_SINK_KSV_ONLY
  | TEXT_LINE_SOURCE
  | TEXT_LINE_SINK
  | TEXT_FULL
  | JSON
  | JSON_FULL
  | YAML
  | YAML_FULL
  | XML
  | XML_FULL
  | TOML
  | TOML_FULL
  | NOT_FOUND.

Definition string_to_fot (s : list ascii) : formatted_out_type :=
  if str_eq s "text_informational" then TEXT_INFORMATIONAL
  else if str_eq s "text_source_only" then TEXT_SOURCE_ONLY
  else if str_eq s "text_sink_only" then TEXT_SINK_ONLY
  else if str_eq s "text_source_ksv_only" then TEXT_SOURCE_KSV_ONLY
  else if str_eq s "text_sink_ksv_only" then TEXT_SINK_KSV_ONLY
  else if str_eq s "text_line_source" then TEXT_LINE_SOURCE
  else if str_eq s "text_line_sink" then TEXT_LINE_SINK
  else if str_eq s "text_full" then TEXT_FULL
  else if str_eq s "json" then JSON
  else if str_eq s "json_full" then JSON_FULL
  else if str_eq s "yaml" then YAML
  else if str_eq s "yaml_full" then YAML_FULL
  else if str_eq s "xml" then XML
  else if str_eq s "xml_full" then XML_FULL
  else if str_eq s "toml" then TOML
  else if str_eq s "toml_full" then TOML_FULL
  else NOT_FOUND.

(** ** The class [hdcp] (hdcp.h, 137-166) and [hdcp::formatted]
    (hdcp.cpp, 304-577) *)

(** The item loops of [hdcp::formatted], each of which the source repeats
    for the source key, the sink key and the matrix. *)

(** [for (auto const &x : arr) result += bitset_to_hex<56>(x) + " ";] *)
Definition line_items (arr : list Z) (result : list ascii)
    : option (list ascii) :=
  for_each arr (λ x result,
    h ← bitset_to_hex 56 x; Some (result ++ (h ++ lit " "))) result.

(** The indexed loop of the JSON formats: a comma after every item but
    the one at index [size - 1]. *)
Definition json_items (size : nat) (arr : list Z) (result : list ascii)
    : option (list ascii) :=
  for_loop (seq 0 size) (λ i result,
    x ← arr !! i;
    h ← bitset_to_hex 56 x;
    let result := result ++ (lit "        \q" ++ h ++ lit "\q") in
    let result :=
      if negb (i =? size - 1)%nat then result ++ lit "," else result in
    Some (result ++ lit "\n")) result.

(** [for (auto const &x : arr) result += "  - " + bitset_to_hex<56>(x) + "\n";] *)
Definition yaml_items (arr : list Z) (result : list ascii)
    : option (list ascii) :=
  for_each arr (λ x result,
    h ← bitset_to_hex 56 x;
    Some (result ++ (lit "  - " ++ h ++ lit "\n"))) result.

Definition xml_items (arr : list Z) (result : list ascii)
    : option (list ascii) :=
  for_each arr (λ x result,
    h ← bitset_to_hex 56 x;
    Some (result ++ (lit "        <item>" ++ h ++ lit "</item>" ++ lit "\n")))
    result.

Definition toml_items (arr : list Z) (result : list ascii)
    : option (list ascii) :=
  for_each arr (λ x result,
    h ← bitset_to_hex 56 x;
    Some (result ++ (lit "  \q" ++ h ++ lit "\q,\n"))) result.

Module hdcp.

Record t : Type := Build {
  hdcp_key : list Z;
  ksv : Z;
  source : list Z;
  sink : list Z
}.

(** The constructor [hdcp(key, ksv)]. *)
Definition new (key : list Z) (ksv : Z) : option t :=
  source ← generate_source ksv key;
  sink ← generate_sink ksv key;
  Some (Build key ksv source sink).

Definition formatted (h : t) (fmt : formatted_out_type)
    : option (list ascii) :=
  let result : list ascii := [] in
  match fmt with
  | TEXT_INFORMATIONAL =>
      k ← bitset_to_hex 40 (ksv h);
      let result := result ++ (lit "ksv: " ++ k ++ lit "\n\n") in
      let result := result ++ lit "Source:\n" in
      a ← get_key_array 40 (source h);
      let result := result ++ (a ++ lit "\n") in
      let result := result ++ lit "Sink:\n" in
      b ← get_key_array 40 (sink h);
      Some (result ++ b)
  | TEXT_SOURCE_ONLY =>
      let result := result ++ lit "Source:\n" in
      a ← get_key_array 40 (source h);
      Some (result ++ a)
  | TEXT_SINK_ONLY =>
      let result := result ++ lit "Sink:\n" in
      b ← get_key_array 40 (sink h);
      Some (result ++ b)
  | TEXT_SOURCE_KSV_ONLY =>
      k ← bitset_to_hex 40 (ksv h);
      let result := result ++ (lit "ksv: " ++ k ++ lit "\n\n") in
      let result := result ++ lit "Source:\n" in
      a ← get_key_array 40 (source h);
      Some (result ++ a)
  | TEXT_SINK_KSV_ONLY =>
      k ← bitset_to_hex 40 (ksv h);
      let result := result ++ (lit "ksv: " ++ k ++ lit "\n\n") in
      let result := result ++ lit "Sink:\n" in
      b ← get_key_array 40 (sink h);
      Some (result ++ b)
  | TEXT_LINE_SOURCE => line_items (source h) result
  | TEXT_LINE_SINK => line_items (sink h) result
  | TEXT_FULL =>
      k ← bitset_to_hex 40 (ksv h);
      let result := result ++ (lit "ksv: " ++ k ++ lit "\n\n") in
      let result := result ++ lit "Source:\n" in
      a ← get_key_array 40 (source h);
      let result := result ++ (a ++ lit "\n") in
      let result := result ++ lit "Sink:\n" in
      b ← get_key_array 40 (sink h);
      let result := result ++ (b ++ lit "\n") in
      let result := result ++ lit "HDCP key:\n" in
      c ← get_key_array 1600 (hdcp_key h);
      Some (result ++ c)
  | JSON =>
      let result := result ++ lit "{\n" in
      k ← bitset_to_hex 40 (ksv h);
      let result := result ++ (lit "    \qksv\q:\q" ++ k ++ lit "\q,\n") in
      let result := result ++ lit "    \qsource\q:\n" in
      let result := result ++ lit "    [\n" in
      result ← json_items 40 (source h) result;
      let result := result ++ lit "    ],\n" in
      let result := result ++ lit "    \qsink\q:\n" in
      let result := result ++ lit "    [\n" in
      result ← json_items 40 (sink h) result;
      let result := result ++ lit "    ]\n" in
      Some (result ++ lit "}\n")
  | JSON_FULL =>
      let result := result ++ lit "{\n" in
      k ← bitset_to_hex 40 (ksv h);
      let result := result ++ (lit "    \qksv\q:\q" ++ k ++ lit "\q,\n") in
      let result := result ++ lit "    \qsource\q:\n" in
      let result := result ++ lit "    [\n" in
      result ← json_items 40 (source h) result;
      let result := result ++ lit "    ],\n" in
      let result := result ++ lit "    \qsink\q:\n" in
      let result := result ++ lit "    [\n" in
      result ← json_items 40 (sink h) result;
      let result := result ++ lit "    ],\n" in
      let result := result ++ lit "    \qhdcp_key\q:\n" in
      let result := result ++ lit "    [\n" in
      result ← json_items 1600 (hdcp_key h) result;
      let result := result ++ lit "    ]\n" in
      Some (result ++ lit "}\n")
  | YAML =>
      k ← bitset_to_hex 40 (ksv h);
      let result := result ++ (lit "ksv: " ++ k ++ lit "\n") in
      let result := result ++ lit "source:\n" in
      result ← yaml_items (source h) result;
      let result := result ++ lit "sink:\n" in
      yaml_items (sink h) result
  | YAML_FULL =>
      k ← bitset_to_hex 40 (ksv h);
      let result := result ++ (lit "ksv: " ++ k ++ lit "\n") in
      let result := result ++ lit "source:\n" in
      result ← yaml_items (source h) result;
      let result := result ++ lit "sink:\n" in
      result ← yaml_items (sink h) result;
      let result := result ++ lit "hdcp_key:\n" in
      yaml_items (hdcp_key h) result
  | XML =>
      let result :=
        result ++ lit "<?xml version=\q1.0\q encoding=\qUTF-8\q?>\n" in
      let result := result ++ lit "<hdcp>\n" in
      k ← bitset_to_hex 40 (ksv h);
      let result :=
        result ++ (lit "    <ksv>" ++ k ++ lit "</ksv>" ++ lit "\n") in
      let result := result ++ lit "    <source>\n" in
      result ← xml_items (source h) result;
      let result := result ++ lit "    </source>\n" in
      let result := result ++ lit "    <sink>\n" in
      result ← xml_items (sink h) result;
      let result := result ++ lit "    </sink>\n" in
      Some (result ++ lit "</hdcp>\n")
  | XML_FULL =>
      let result :=
        result ++ lit "<?xml version=\q1.0\q encoding=\qUTF-8\q?>\n" in
      let result := result ++ lit "<hdcp>\n" in
      k ← bitset_to_hex 40 (ksv h);
      let result :=
        result ++ (lit "    <ksv>" ++ k ++ lit "</ksv>" ++ lit "\n") in
      let result := result ++ lit "    <source>\n" in
      result ← xml_items (source h) result;
      let result := result ++ lit "    </source>\n" in
      let result := result ++ lit "    <sink>\n" in
      result ← xml_items (sink h) result;
      let result := result ++ lit "    </sink>\n" in
      let result := result ++ lit "    <hdcp_key>\n" in
      result ← xml_items (hdcp_key h) result;
      let result := result ++ lit "    </hdcp_key>\n" in
      Some (result ++ lit "</hdcp>\n")
  | TOML =>
      k ← bitset_to_hex 40 (ksv h);
      let result := result ++ (lit "ksv = \q" ++ k ++ lit "\q\n") in
      let result := result ++ lit "source = [\n" in
      result ← toml_items (source h) result;
      let result := result ++ lit "]\n" in
      let result := result ++ lit "sink = [\n" in
      result ← toml_items (sink h) result;
      Some (result ++ lit "]\n")
  | TOML_FULL =>
      k ← bitset_to_hex 40 (ksv h);
      let result := result ++ (lit "ksv = \q" ++ k ++ lit "\q\n") in
      let result := result ++ lit "source = [\n" in
      result ← toml_items (source h) result;
      let result := result ++ lit "]\n" in
      let result := result ++ lit "sink = [\n" in
      result ← toml_items (sink h) result;
      let result := result ++ lit "]\n" in
      let result := result ++ lit "hdcp_key = [\n" in
      result ← toml_items (hdcp_key h) result;
      Some (result ++ lit "]\n")
  | NOT_FOUND => Some result
  end.

End hdcp.

(** ** [print_help] and [main] (hdcp-gen-key.cpp, 47-157) *)

(** The text of the raw string literal of [print_help]. *)
Definition help : list ascii :=
  lit "hdcp-gen-key is a tool for generating HDCP keys (HDCP versions 1.0-1.4).\n" ++
  lit "It uses Intel's Master Key Matrix.\n" ++
  lit "\n" ++
  lit "usage: hdcp-gen-key [options...]\n" ++
  lit "\n" ++
  lit "Options:\n" ++
  lit "  -k, --ksv <hex>           Key Selection Vector (KSV) in 10-character hexadecimal format.\n" ++
  lit "                            The KSV must be a 40-bit binary number consisting of\n" ++
  lit "                            twenty '1's and twenty '0's.\n" ++
  lit "                            [default: randomly generated valid KSV]\n" ++
  lit "  -o, --out <format_option> Specifies the output format and content.\n" ++
  lit "                            See 'Output Formats' below.\n" ++
  lit "                            [default: text_informational]\n" ++
  lit "  --version                 Print the application version and exit.\n" ++
  lit "  -h, --help                Show this help message and exit.\n" ++
  lit "\n" ++
  lit "Output Formats:\n" ++
  lit "  text_informational    : Human-readable KSV, generated source device key, and generated sink device key.\n" ++
  lit "  text_source_only      : Human-readable generated source device key only.\n" ++
  lit "  text_sink_only        : Human-readable generated sink device key only.\n" ++
  lit "  text_source_ksv_only  : Human-readable KSV and generated source device key.\n" ++
  lit "  text_sink_ksv_only    : Human-readable KSV and generated sink device key.\n" ++
  lit "  text_line_source      : Generated source device key as a line of space-separated hexadecimal values.\n" ++
  lit "  text_line_sink        : Generated sink device key as a line of space-separated hexadecimal values.\n" ++
  lit "  text_full             : Human-readable KSV, generated source device key, generated sink device key,\n" ++
  lit "                          and the derived HDCP shared key.\n" ++
  lit "  json                  : KSV, generated source device key, and generated sink device key as JSON.\n" ++
  lit "  json_full             : KSV, generated source device key, generated sink device key,\n" ++
  lit "                          and the derived HDCP shared key as JSON.\n" ++
  lit "  yaml                  : KSV, generated source device key, and generated sink device key as YAML.\n" ++
  lit "  yaml_full             : KSV, generated source device key, generated sink device key,\n" ++
  lit "                          and the derived HDCP shared key as YAML.\n" ++
  lit "  xml                   : KSV, generated source device key, and generated sink device key as XML.\n" ++
  lit "  xml_full              : KSV, generated source device key, generated sink device key,\n" ++
  lit "                          and the derived HDCP shared key as XML.\n" ++
  lit "  toml                  : KSV, generated source device key, and generated sink device key as TOML.\n" ++
  lit "  toml_full             : KSV, generated source device key, generated sink device key,\n" ++
  lit "                          and the derived HDCP shared key as TOML.\n" ++
  lit "\n" ++
  lit "Examples:\n" ++
  lit "  hdcp-gen-key -k 00000fffff -o json_full\n" ++
  lit "  hdcp-gen-key --out text_line_source\n".

(** [print_help] writes the text and [std::endl]. *)
Definition print_help : list ascii := help ++ lit "\n".

(** The code of a character, as the [int] that [xgetopt_long] returns. *)
Definition char_code (c : ascii) : Z := Z.of_nat (nat_of_ascii c).

(** What [main] does after the option loop: it derives the keys and
    writes them in the chosen format. *)
Definition main_after_loop (intel_hdcp_key : list Z) (ksv : Z)
    (out : formatted_out_type) : option (list ascii * Z) :=
  h ← hdcp.new intel_hdcp_key ksv;
  text ← hdcp.formatted h out;
  Some (text, 0).

(** The option loop of [main] and what follows it.  [xgetopt_long]
    (xgetopt/xgetopt.h) is not part of the sources: the values it returns,
    each with the [xoptarg] it sets, are the list [opts].  The loop ends
    at the first -1, and at the end of the list, where [xgetopt_long] has
    no option left and returns -1.  The matrix [intel_hdcp_key] and the
    macro [HGK_VERSION] (config.h) are parameters as well.  The result is
    what the process has written to [std::cout] when it ends, and its exit
    status. *)
Fixpoint main_loop (intel_hdcp_key : list Z) (HGK_VERSION : list ascii)
    (opts : list (Z * list ascii)) (ksv : Z) (out : formatted_out_type)
    : option (list ascii * Z) :=
  match opts with
  | [] => main_after_loop intel_hdcp_key ksv out
  | (opt, xoptarg) :: rest =>
      if opt =? -1 then main_after_loop intel_hdcp_key ksv out
      else if opt =? char_code "k" then
        ksv ← ksv_string_to_bitset 40 xoptarg;
        main_loop intel_hdcp_key HGK_VERSION rest ksv out
      else if opt =? char_code "o" then
        let out := string_to_fot xoptarg in
        match out with
        | NOT_FOUND =>
            Some (lit "Output format option: '" ++ xoptarg
                    ++ lit "' is not recognized." ++ lit "\n"
                  ++ lit "Try: 'hdcp-gen-key --help' for more information."
                    ++ lit "\n",
                  1)
        | _ => main_loop intel_hdcp_key HGK_VERSION rest ksv out
        end
      else if opt =? char_code "h" then Some (print_help, 0)
      else if opt =? char_code "v" then Some (HGK_VERSION ++ lit "\n", 0)
      else Some ([], 1)
  end.

Definition main (shuffle : list nat → list nat) (intel_hdcp_key : list Z)
    (HGK_VERSION : list ascii) (opts : list (Z * list ascii))
    : option (list ascii * Z) :=
  ksv ← random_ksv shuffle;
  let out := TEXT_INFORMATIONAL in
  main_loop intel_hdcp_key HGK_VERSION opts ksv out.

(** The name of each output format on the command line, as [print_help]
    lists them; [NOT_FOUND] has none. *)
Definition fot_name (fmt : formatted_out_type) : option string :=
  match fmt with
  | TEXT_INFORMATIONAL => Some "text_informational"
  | TEXT_SOURCE_ONLY => Some "text_source_only"
  | TEXT_SINK_ONLY => Some "text_sink_only"
  | TEXT_SOURCE_KSV_ONLY => Some "text_source_ksv_only"
  | TEXT_SINK_KSV_ONLY => Some "text_sink_ksv_only"
  | TEXT_LINE_SOURCE => Some "text_line_source"
  | TEXT_LINE_SINK => Some "text_line_sink"
  | TEXT_FULL => Some "text_full"
  | JSON => Some "json"
  | JSON_FULL => Some "json_full"
  | YAML => Some "yaml"
  | YAML_FULL => Some "yaml_full"
  | XML => Some "xml"
  | XML_FULL => Some "xml_full"
  | TOML => Some "toml"
  | TOML_FULL => Some "toml_full"
  | NOT_FOUND => None
  end%string.

(** The copy loop of [random_ksv] (hdcp.cpp, 207-211) on the index vector
    that the shuffle has left: [random_ksv shuffle] is this loop on
    [shuffle (seq 0 40)]. *)
Definition copy_shuffled (indices : list nat) : option Z :=
  let bs := 0x00000fffff in
  for_loop (seq 0 40) (λ i shuffled_bs,
    idx ← indices !! i;
    b ← bitset_get 40 bs idx;
    bitset_set 40 shuffled_bs i b) 0.

(** The position of the first occurrence of [x] in [l] (the length of
    [l] when there is none). *)
Fixpoint index_of (x : nat) (l : list nat) : nat :=
  match l with
  | [] => 0%nat
  | y :: l' => if decide (x = y) then 0%nat else S (index_of x l')
  end.

(** The hexadecimal digits of a value of [bits] bits, most significant
    first: what [bitset_to_hex] returns. *)
Definition hex_of (bits : nat) (num : Z) : list ascii :=
  map (λ i, hex_digit (nibble_at num (bits / 4 - 1 - i))) (seq 0 (bits / 4)).

(** Items joined by a separator: the separator stands between two
    items, not after the last one. *)
Definition join (sep : list ascii) (items : list (list ascii)) : list ascii :=
  match items with
  | [] => []
  | x :: rest => x ++ concat (map (λ y, sep ++ y) rest)
  end.

(** * Properties *)

(** ** Examples *)

Example check_ksv_low20 : bitset_count 40 0x00000fffff = 20%nat.
Proof. reflexivity. Qed.

Example generate_source_ones :
  generate_source 0x00000fffff (replicate 1600 1) = Some (replicate 40 20).
Proof. vm_compute. reflexivity. Qed.

Example generate_sink_ones :
  generate_sink 0x00000fffff (replicate 1600 1) = Some (replicate 40 20).
Proof. vm_compute. reflexivity. Qed.

Example generate_source_wraps :
  generate_source 0x00000fffff (replicate 1600 0xffffffffffffff)
  = Some (replicate 40 ((20 * 0xffffffffffffff) mod 2 ^ 56)).
Proof. vm_compute. reflexivity. Qed.

Example generate_source_short_matrix :
  generate_source (2 ^ 40 - 1) (replicate 1599 0) = None.
Proof. vm_compute. reflexivity. Qed.

Example hex_40 :
  bitset_to_hex 40 0x00000fffff = Some (list_ascii_of_string "00000fffff").
Proof. vm_compute. reflexivity. Qed.

Example hex_56_zero :
  bitset_to_hex 56 0 = Some (list_ascii_of_string "00000000000000").
Proof. vm_compute. reflexivity. Qed.

Example string_at_terminator :
  string_at (list_ascii_of_string "ab") 2 = Some (ascii_of_nat 0) ∧
  string_at (list_ascii_of_string "ab") 3 = None.
Proof. split; reflexivity. Qed.

Example parse_40 :
  ksv_string_to_bitset 40 (list_ascii_of_string "00000fffff") = Some 0x00000fffff.
Proof. vm_compute. reflexivity. Qed.

Example parse_15_chars_64 :
  ksv_string_to_bitset 64 (list_ascii_of_string "123456789abcdef")
  = Some 0x123456789abcdef.
Proof. vm_compute. reflexivity. Qed.

Example parse_17_chars_64 :
  ksv_string_to_bitset 64 (list_ascii_of_string "f123456789abcdef0")
  = Some 0x123456789abcdef0.
Proof. vm_compute. reflexivity. Qed.

Example parse_uppercase :
  ksv_string_to_bitset 40 (list_ascii_of_string "00000FFFFF") = Some 0.
Proof. vm_compute. reflexivity. Qed.

Example random_ksv_rev : random_ksv (@rev nat) = Some 0xfffff00000.
Proof. vm_compute. reflexivity. Qed.

(** ** Loops *)

Lemma for_loop_app {St} (l1 l2 : list nat) (body : nat → St → option St) s :
  for_loop (l1 ++ l2) body s = s' ← for_loop l1 body s; for_loop l2 body s'.
Proof.
  revert s. induction l1 as [|i l1 IH]; intros s; simpl; [done|].
  destruct (body i s) as [s'|]; simpl; [apply IH | done].
Qed.

Lemma for_loop_ext {St} (l : list nat) (body body' : nat → St → option St) s :
  (∀ i s, i ∈ l → body i s = body' i s) →
  for_loop l body s = for_loop l body' s.
Proof.
  revert s. induction l as [|i l IH]; intros s Hext; simpl; [done|].
  rewrite Hext by (left; done).
  destruct (body' i s) as [s'|]; simpl; [|done].
  apply IH. intros j t Hj. apply Hext. by right.
Qed.

Lemma store_Some {A} (a : list A) i x :
  (i < length a)%nat → store a i x = Some (<[i := x]> a).
Proof.
  intros Hi. unfold store.
  destruct (Nat.ltb_spec i (length a)); [done | lia].
Qed.

(** A loop that computes one value per index and stores it at that index
    fills the array from the left. *)
Lemma for_loop_store {A} (g : nat → option A) (w : nat → A) n (r0 : list A) :
  (n ≤ length r0)%nat →
  (∀ i, (i < n)%nat → g i = Some (w i)) →
  for_loop (seq 0 n) (λ i result, v ← g i; store result i v) r0
  = Some (map w (seq 0 n) ++ drop n r0).
Proof.
  induction n as [|n IH]; intros Hlen Hg.
  - simpl. by rewrite drop_0.
  - rewrite seq_S, for_loop_app, IH by (auto with lia). simpl.
    rewrite Hg by lia. simpl.
    assert (Hn : length (map w (seq 0 n)) = n)
      by (by rewrite length_map, length_seq).
    rewrite store_Some by (rewrite length_app, length_drop; lia).
    f_equal. rewrite map_app. simpl.
    destruct (lookup_lt_is_Some_2 r0 n) as [x Hx]; [lia|].
    rewrite (drop_S _ _ _ Hx).
    rewrite <- (Nat.add_0_r n) at 1. rewrite <- Hn at 1.
    rewrite insert_app_r. simpl. by rewrite <- app_assoc.
Qed.

Lemma bitset_get_lt bits v pos :
  (pos < bits)%nat → bitset_get bits v pos = Some (Z.testbit v (Z.of_nat pos)).
Proof.
  intros H. unfold bitset_get.
  destruct (Nat.ltb_spec pos bits); [done | lia].
Qed.

(** ** The derivations *)

Section Accumulate.
Variables (ksv : Z) (key : list Z) (idx : nat → nat).

Lemma accumulate_step_lt z temp :
  (z < 40)%nat →
  accumulate_step ksv key idx z temp
  = if Z.testbit ksv (Z.of_nat z)
    then k ← key !! idx z; Some (wrap64 (temp + to_ullong k))
    else Some temp.
Proof.
  intros Hz. unfold accumulate_step. by rewrite bitset_get_lt by done.
Qed.

(** In-range indices are enough for the inner loop to return. *)
Lemma accumulate_total zs temp :
  Forall (λ z, (z < 40)%nat ∧ (idx z < length key)%nat) zs →
  is_Some (for_loop zs (accumulate_step ksv key idx) temp).
Proof.
  intros Hzs. revert temp.
  induction Hzs as [|z zs [Hz Hi] _ IH]; intros temp; [by eexists|].
  cbn [for_loop]. rewrite accumulate_step_lt by done.
  destruct (Z.testbit ksv (Z.of_nat z)); [|apply IH].
  destruct (lookup_lt_is_Some_2 key (idx z) Hi) as [k ->].
  cbn [mbind option_bind]. apply IH.
Qed.

(** With entries of 56 bits and room left in the 64-bit accumulator, no
    addition wraps: the loop returns the exact sum. *)
Lemma accumulate_exact zs temp :
  Forall (λ z, (z < 40)%nat ∧
               ∃ k, key !! idx z = Some k ∧ 0 <= k < 2 ^ 56) zs →
  0 <= temp →
  temp + 2 ^ 56 * Z.of_nat (length zs) <= 2 ^ 64 →
  for_loop zs (accumulate_step ksv key idx) temp
  = Some (temp + partial_sum ksv key idx zs) ∧
  0 <= partial_sum ksv key idx zs <= (2 ^ 56 - 1) * Z.of_nat (length zs).
Proof.
  intros Hzs. revert temp.
  induction Hzs as [|z zs (Hz & k & Hk & Hk56) _ IH]; intros temp H0 Hroom.
  - change (partial_sum ksv key idx []) with 0. cbn [for_loop length].
    split; [f_equal; lia | lia].
  - cbn [for_loop]. rewrite accumulate_step_lt by done.
    unfold partial_sum. rewrite filter_cons.
    rewrite length_cons, Nat2Z.inj_succ in Hroom |- *.
    destruct (decide (Z.testbit ksv (Z.of_nat z) = true)) as [Hb|Hb].
    + rewrite Hb, Hk. cbn [mbind option_bind map foldr default from_option id].
      unfold to_ullong, wrap64.
      rewrite Z.mod_small by lia.
      destruct (IH (temp + k)) as [-> Hp]; [lia | lia |].
      unfold partial_sum in *. rewrite Hk. cbn [default from_option id].
      split; [f_equal; lia | lia].
    + apply not_true_is_false in Hb. rewrite Hb. cbn [mbind option_bind].
      destruct (IH temp) as [-> Hp]; [lia | lia |].
      unfold partial_sum in *. split; [done | lia].
Qed.
End Accumulate.

Lemma generate_source_derive ksv key :
  generate_source ksv key = derive ksv key (λ i z, z * 40 + i)%nat.
Proof. reflexivity. Qed.

Lemma generate_sink_derive ksv key :
  generate_sink ksv key = derive ksv key (λ i z, i * 40 + z)%nat.
Proof. reflexivity. Qed.

Lemma mask56 x : to_bitset 56 (Z.land x 0xffffffffffffff) = x mod 2 ^ 56.
Proof.
  unfold to_bitset. change 0xffffffffffffff with (Z.ones 56).
  rewrite Z.land_ones by lia. change (Z.of_nat 56) with 56.
  apply Z.mod_mod. lia.
Qed.

Lemma derive_value ksv key idx (w : nat → Z) :
  (∀ i, (i < 40)%nat →
     for_loop (seq 0 40) (accumulate_step ksv key (idx i)) 0 = Some (w i)) →
  derive ksv key idx = Some (map (λ i, w i mod 2 ^ 56) (seq 0 40)).
Proof.
  intros Hw. unfold derive.
  rewrite (for_loop_ext _ _
    (λ i result,
       v ← (temp ← for_loop (seq 0 40) (accumulate_step ksv key (idx i)) 0;
            Some (temp mod 2 ^ 56));
       store result i v)).
  - rewrite (for_loop_store _ (λ i, w i mod 2 ^ 56)).
    + change (drop 40 (replicate 40 0)) with (@nil Z). by rewrite app_nil_r.
    + by rewrite length_replicate.
    + intros i Hi. by rewrite Hw.
  - intros i result Hi.
    destruct (for_loop (seq 0 40) (accumulate_step ksv key (idx i)) 0);
      cbn [mbind option_bind]; [by rewrite mask56 | done].
Qed.

Lemma derive_total ksv key idx :
  (∀ i z, (i < 40)%nat → (z < 40)%nat → (idx i z < length key)%nat) →
  is_Some (derive ksv key idx).
Proof.
  intros Hidx.
  rewrite (derive_value ksv key idx (λ i,
    default 0 (for_loop (seq 0 40) (accumulate_step ksv key (idx i)) 0)));
    [by eexists|].
  intros i Hi.
  destruct (accumulate_total ksv key (idx i) (seq 0 40) 0) as [t ->]; [|done].
  apply Forall_forall. intros z Hz%elem_of_seq. split; [lia|].
  apply Hidx; lia.
Qed.

Lemma matrix_wf_lookup key n :
  matrix_wf key = true → (n < 1600)%nat →
  ∃ k, key !! n = Some k ∧ 0 <= k < 2 ^ 56.
Proof.
  unfold matrix_wf. intros [Hlen Hall]%andb_true_iff Hn.
  apply Nat.eqb_eq in Hlen.
  destruct (lookup_lt_is_Some_2 key n) as [k Hk]; [lia|].
  exists k. split; [done|].
  rewrite forallb_forall in Hall.
  assert (Hin : In k key) by (apply list_elem_of_In, list_elem_of_lookup; eauto).
  specialize (Hall k Hin). unfold bitset_wf in Hall.
  apply andb_true_iff in Hall as [H1 H2].
  change (Z.of_nat 56) with 56 in H2. lia.
Qed.

Lemma derive_exact ksv key idx :
  matrix_wf key = true →
  (∀ i z, (i < 40)%nat → (z < 40)%nat → (idx i z < 1600)%nat) →
  derive ksv key idx
  = Some (map (λ i, selected_sum ksv key (idx i) mod 2 ^ 56) (seq 0 40)) ∧
  ∀ i n, (i < 40)%nat → (n ≤ 40)%nat →
    for_loop (seq 0 n) (accumulate_step ksv key (idx i)) 0
    = Some (partial_sum ksv key (idx i) (seq 0 n)) ∧
    0 <= partial_sum ksv key (idx i) (seq 0 n) < 2 ^ 64.
Proof.
  intros Hwf Hidx.
  assert (Hacc : ∀ i n, (i < 40)%nat → (n ≤ 40)%nat →
    for_loop (seq 0 n) (accumulate_step ksv key (idx i)) 0
    = Some (partial_sum ksv key (idx i) (seq 0 n)) ∧
    0 <= partial_sum ksv key (idx i) (seq 0 n) < 2 ^ 64).
  { intros i n Hi Hn.
    destruct (accumulate_exact ksv key (idx i) (seq 0 n) 0) as [Hrun Hb].
    - apply Forall_forall. intros z Hz%elem_of_seq. split; [lia|].
      apply matrix_wf_lookup; [done|]. apply Hidx; lia.
    - lia.
    - rewrite length_seq. lia.
    - rewrite length_seq in Hb. rewrite Hrun.
      split; [f_equal; lia | lia]. }
  split; [|done].
  apply derive_value. intros i Hi. by destruct (Hacc i 40%nat Hi).
Qed.

Lemma derive_ext ksv key key' idx idx' :
  (∀ i z, (i < 40)%nat → (z < 40)%nat → key !! idx i z = key' !! idx' i z) →
  derive ksv key idx = derive ksv key' idx'.
Proof.
  intros Hsame. unfold derive.
  apply for_loop_ext. intros i result Hi%elem_of_seq.
  rewrite (for_loop_ext _ _ (accumulate_step ksv key' (idx' i))); [done|].
  intros z temp Hz%elem_of_seq.
  unfold accumulate_step. rewrite Hsame by lia. done.
Qed.

Lemma transpose_length M : length (transpose M) = 1600%nat.
Proof. unfold transpose. by rewrite length_map, length_seq. Qed.

Lemma transpose_lookup M i z :
  length M = 1600%nat → (i < 40)%nat → (z < 40)%nat →
  transpose M !! (i * 40 + z)%nat = M !! (z * 40 + i)%nat.
Proof.
  intros Hlen Hi Hz. unfold transpose.
  rewrite list_lookup_fmap, lookup_seq_lt by lia. cbn [fmap option_fmap option_map].
  replace ((0 + (i * 40 + z)) `mod` 40)%nat with z
    by (rewrite Nat.add_0_l, Nat.add_comm, Nat.Div0.mod_add;
        by rewrite Nat.mod_small).
  replace ((0 + (i * 40 + z)) / 40)%nat with i
    by (rewrite Nat.add_0_l, Nat.add_comm, Nat.div_add by lia;
        by rewrite Nat.div_small).
  destruct (lookup_lt_is_Some_2 M (z * 40 + i)) as [k ->]; [lia | done].
Qed.

(** ** The claims on the derivations *)

(** C2. For every KSV and every well-formed matrix (1600 entries of 56
    bits), [generate_source] returns the 40-entry array whose entry [i] is
    the sum of the matrix entries at the linear indices [z*40 + i], over the
    bit positions [z] below 40 at which the KSV is set, reduced modulo
    [2^56]; the 64-bit accumulation itself is exact: after any number [n]
    of iterations the inner loop, with its wrap-around modulo [2^64], holds
    the very sum over the positions below [n], which is below [2^64]. *)
Theorem generate_source_spec (ksv : Z) (key : list Z) :
  matrix_wf key = true →
  generate_source ksv key
  = Some (map (λ i, selected_sum ksv key (λ z, z * 40 + i)%nat mod 2 ^ 56)
              (seq 0 40)) ∧
  ∀ i n, (i < 40)%nat → (n ≤ 40)%nat →
    for_loop (seq 0 n) (accumulate_step ksv key (λ z, z * 40 + i)%nat) 0
    = Some (partial_sum ksv key (λ z, z * 40 + i)%nat (seq 0 n)) ∧
    0 <= partial_sum ksv key (λ z, z * 40 + i)%nat (seq 0 n) < 2 ^ 64.
Proof.
  intros Hwf. rewrite generate_source_derive.
  apply (derive_exact ksv key (λ i z, z * 40 + i)%nat Hwf).
  intros i z Hi Hz. lia.
Qed.

Lemma generate_source_spec_witness :
  generate_source 0x00000fffff (replicate 1600 0xffffffffffffff)
  = Some (map (λ i, selected_sum 0x00000fffff
                      (replicate 1600 0xffffffffffffff)
                      (λ z, z * 40 + i)%nat mod 2 ^ 56)
              (seq 0 40)).
Proof.
  apply (generate_source_spec 0x00000fffff (replicate 1600 0xffffffffffffff)).
  vm_compute. reflexivity.
Defined.

(** C3. [generate_sink] accumulates and truncates exactly as
    [generate_source] does, the matrix entry for output slot [i] and bit
    position [z] being taken at the linear index [i*40 + z]. *)
Theorem generate_sink_spec (ksv : Z) (key : list Z) :
  matrix_wf key = true →
  generate_sink ksv key
  = Some (map (λ i, selected_sum ksv key (λ z, i * 40 + z)%nat mod 2 ^ 56)
              (seq 0 40)) ∧
  ∀ i n, (i < 40)%nat → (n ≤ 40)%nat →
    for_loop (seq 0 n) (accumulate_step ksv key (λ z, i * 40 + z)%nat) 0
    = Some (partial_sum ksv key (λ z, i * 40 + z)%nat (seq 0 n)) ∧
    0 <= partial_sum ksv key (λ z, i * 40 + z)%nat (seq 0 n) < 2 ^ 64.
Proof.
  intros Hwf. rewrite generate_sink_derive.
  apply (derive_exact ksv key (λ i z, i * 40 + z)%nat Hwf).
  intros i z Hi Hz. lia.
Qed.

Lemma generate_sink_spec_witness :
  generate_sink 0x00000fffff (map Z.of_nat (seq 0 1600))
  = Some (map (λ i, selected_sum 0x00000fffff (map Z.of_nat (seq 0 1600))
                      (λ z, i * 40 + z)%nat mod 2 ^ 56)
              (seq 0 40)).
Proof.
  apply (generate_sink_spec 0x00000fffff (map Z.of_nat (seq 0 1600))).
  vm_compute. reflexivity.
Defined.

(** C8. The source derivation on a matrix [M] is the sink derivation on
    any matrix [T] with [T[i*40 + z] = M[z*40 + i]] for all [i], [z] below
    40, that is, on the transpose of [M]. *)
Theorem generate_source_sink_transpose (ksv : Z) (M T : list Z) :
  (∀ i z, (i < 40)%nat → (z < 40)%nat →
     T !! (i * 40 + z)%nat = M !! (z * 40 + i)%nat) →
  generate_source ksv M = generate_sink ksv T.
Proof.
  intros HT. rewrite generate_source_derive, generate_sink_derive.
  apply derive_ext. intros i z Hi Hz. symmetry. by apply HT.
Qed.

Lemma generate_source_sink_transpose_witness :
  generate_source 0x00000fffff (map Z.of_nat (seq 0 1600))
  = generate_sink 0x00000fffff (transpose (map Z.of_nat (seq 0 1600))).
Proof.
  apply (generate_source_sink_transpose 0x00000fffff
           (map Z.of_nat (seq 0 1600))
           (transpose (map Z.of_nat (seq 0 1600)))).
  intros i z Hi Hz. apply transpose_lookup; [reflexivity | lia | lia].
Defined.

(** C10. On a matrix of 1600 entries both derivations return for every
    KSV: no lookup of the matrix (and no other indexing) is out of range,
    every linear index [z*40 + i] and [i*40 + z] with [i], [z] below 40
    being below 1600. *)
Theorem derivations_in_bounds (ksv : Z) (key : list Z) :
  length key = 1600%nat →
  is_Some (generate_source ksv key) ∧
  is_Some (generate_sink ksv key) ∧
  ∀ i z, (i < 40)%nat → (z < 40)%nat →
    (z * 40 + i < length key)%nat ∧ (i * 40 + z < length key)%nat.
Proof.
  intros Hlen. rewrite generate_source_derive, generate_sink_derive.
  split; [|split].
  - apply derive_total. intros i z Hi Hz. lia.
  - apply derive_total. intros i z Hi Hz. lia.
  - intros i z Hi Hz. lia.
Qed.

Lemma derivations_in_bounds_witness :
  is_Some (generate_source (2 ^ 40 - 1) (replicate 1600 0xffffffffffffff)) ∧
  is_Some (generate_sink (2 ^ 40 - 1) (replicate 1600 0xffffffffffffff)).
Proof.
  destruct (derivations_in_bounds (2 ^ 40 - 1)
              (replicate 1600 0xffffffffffffff) eq_refl) as (H1 & H2 & _).
  exact (conj H1 H2).
Defined.

(** ** [check_ksv] *)

Lemma check_ksv_true_iff ksv :
  check_ksv ksv = true ↔ bitset_count 40 ksv ≠ 20%nat.
Proof.
  unfold check_ksv. rewrite negb_true_iff. apply Nat.eqb_neq.
Qed.

(** C1 (the code departs from it). The claim is that [check_ksv] returns
    true exactly for the KSVs of Hamming weight 20, as the documentation of
    [check_ksv] in hdcp.h says with its two examples.  The code returns the
    opposite: on [0x00000fffff], of weight 20, it returns false, and on
    [0x00000aaaa0], of weight 8, it returns true. *)
Theorem check_ksv_inverted :
  bitset_count 40 0x00000fffff = 20%nat ∧ check_ksv 0x00000fffff = false ∧
  bitset_count 40 0x00000aaaa0 = 8%nat ∧ check_ksv 0x00000aaaa0 = true.
Proof. repeat split; vm_compute; reflexivity. Qed.

(** ** The hexadecimal parser *)

Lemma char_to_uint8_t_range c : 0 <= char_to_uint8_t c < 16.
Proof. destruct c as [[] [] [] [] [] [] [] []]; simpl; lia. Qed.

Lemma char_to_uint8_t_other c :
  is_lower_hex c = false → char_to_uint8_t c = 0.
Proof.
  destruct c as [[] [] [] [] [] [] [] []]; vm_compute; intros H;
    first [reflexivity | discriminate H].
Qed.

Lemma le_value_cons d l : le_value (d :: l) = d + 16 * le_value l.
Proof. reflexivity. Qed.

Lemma le_value_app l1 l2 :
  le_value (l1 ++ l2) = le_value l1 + 16 ^ Z.of_nat (length l1) * le_value l2.
Proof.
  induction l1 as [|d l1 IH].
  - cbn [app length]. change (le_value []) with 0.
    change (16 ^ Z.of_nat 0) with 1. lia.
  - cbn [app length]. rewrite !le_value_cons, IH.
    rewrite Nat2Z.inj_succ, Z.pow_succ_r by lia. lia.
Qed.

Lemma le_value_range l :
  Forall (λ d, 0 <= d < 16) l → 0 <= le_value l < 16 ^ Z.of_nat (length l).
Proof.
  induction 1 as [|d l Hd _ IH].
  - change (0 <= 0 < 1). lia.
  - cbn [length]. rewrite le_value_cons.
    rewrite Nat2Z.inj_succ, Z.pow_succ_r by lia. lia.
Qed.

(** Nibbles beyond the end of the list read as 0 and do not change the
    value. *)
Lemma le_value_lookup_default (D : list Z) n :
  le_value (map (λ k, default 0 (D !! k)) (seq 0 n)) = le_value (take n D).
Proof.
  revert D. induction n as [|n IH]; intros D; [by destruct D|].
  cbn [seq map]. rewrite <- seq_shift, map_map, le_value_cons.
  destruct D as [|d D].
  - change (0 + 16 * le_value (map (λ k, default 0 (@nil Z !! k)) (seq 0 n))
            = 0).
    rewrite IH. by destruct n.
  - change (d + 16 * le_value (map (λ k, default 0 (D !! k)) (seq 0 n))
            = le_value (d :: take n D)).
    by rewrite IH, le_value_cons.
Qed.

Lemma le_value_take_mod D n :
  Forall (λ d, 0 <= d < 16) D →
  le_value (take n D) = le_value D mod 16 ^ Z.of_nat n.
Proof.
  intros HD.
  pose proof (le_value_range (take n D) (Forall_take _ n D HD)) as Ht.
  destruct (decide (n ≤ length D)%nat) as [Hn|Hn].
  - rewrite length_take, Nat.min_l in Ht by done.
    rewrite <- (take_drop n D) at 2.
    rewrite le_value_app, length_take, Nat.min_l by done.
    rewrite (Z.mul_comm (16 ^ Z.of_nat n)), Z.mod_add by lia.
    by rewrite Z.mod_small.
  - rewrite take_ge in Ht |- * by lia.
    rewrite Z.mod_small; [done|]. split; [lia|].
    apply Z.lt_le_trans with (16 ^ Z.of_nat (length D)); [lia|].
    apply Z.pow_le_mono_r; lia.
Qed.

Lemma hex_value_snoc p c :
  hex_value (p ++ [c]) = 16 * hex_value p + char_to_uint8_t c.
Proof. unfold hex_value. by rewrite foldl_app. Qed.

(** Most significant digit first is least significant first on the
    reversed string. *)
Lemma hex_value_le_value p :
  hex_value p = le_value (map char_to_uint8_t (rev p)).
Proof.
  induction p as [|c p IH] using rev_ind; [done|].
  rewrite hex_value_snoc, rev_app_distr. cbn [rev app map].
  rewrite le_value_cons, IH. lia.
Qed.

Lemma hex_value_leading_zeros n s :
  hex_value (replicate n "0"%char ++ s) = hex_value s.
Proof.
  unfold hex_value. rewrite foldl_app. f_equal.
  induction n as [|n IH]; [done|].
  rewrite replicate_S_end, foldl_app, IH. reflexivity.
Qed.

Lemma padding_loop n :
  foldl (λ acc (_ : nat), acc ++ ["0"%char]) [] (seq 0 n)
  = replicate n "0"%char.
Proof.
  induction n as [|n IH]; [done|].
  by rewrite seq_S, foldl_app, IH, replicate_S_end.
Qed.

Lemma string_to_convert_padded s :
  string_to_convert s = rev (replicate (15 - length s) "0"%char ++ s).
Proof.
  unfold string_to_convert.
  destruct (Nat.ltb_spec (length s) 15) as [Hlt|Hge].
  - by rewrite padding_loop.
  - by replace (15 - length s)%nat with 0%nat by lia.
Qed.

Lemma string_to_convert_length s : (15 ≤ length (string_to_convert s))%nat.
Proof.
  rewrite string_to_convert_padded, length_rev, length_app, length_replicate.
  lia.
Qed.

Lemma string_at_digit q n :
  (n ≤ length q)%nat →
  ∃ c, string_at q n = Some c ∧
       char_to_uint8_t c = default 0 (map char_to_uint8_t q !! n).
Proof.
  intros Hn. unfold string_at.
  change (map char_to_uint8_t q) with (char_to_uint8_t <$> q).
  rewrite list_lookup_fmap.
  destruct (q !! n) as [c|] eqn:Hq.
  - by exists c.
  - apply lookup_ge_None in Hq.
    replace n with (length q) by lia. rewrite Nat.eqb_refl.
    by eexists.
Qed.

Lemma set_nibble_fresh k v ksv_number :
  0 <= ksv_number < 16 ^ Z.of_nat k → 0 <= v < 16 →
  set_nibble k v ksv_number = ksv_number + 16 ^ Z.of_nat k * v.
Proof.
  intros Hkl Hv. unfold set_nibble. cbv zeta.
  rewrite (Z.div_small ksv_number) by done.
  rewrite (Z.mod_small v) by done.
  change (0 `mod` 16) with 0. lia.
Qed.

(** The assignments to [u0] ... [u<n-1>], in this order, on a zeroed
    union. *)
Lemma assign_loop q n :
  (n ≤ S (length q))%nat →
  for_loop (seq 0 n) (λ k kl, assign_u k q kl) 0
  = Some (le_value (map (λ k, default 0 (map char_to_uint8_t q !! k))
                        (seq 0 n))).
Proof.
  induction n as [|n IH]; intros Hn; [done|].
  rewrite seq_S, for_loop_app, IH by lia.
  cbn [mbind option_bind for_loop Nat.add]. unfold assign_u.
  destruct (string_at_digit q n) as (c & -> & Hc); [lia|].
  cbn [mbind option_bind]. f_equal.
  rewrite map_app, le_value_app, length_map, length_seq.
  cbn [map]. rewrite le_value_cons. change (le_value []) with 0.
  rewrite <- Hc.
  pose proof (char_to_uint8_t_range c).
  rewrite set_nibble_fresh; [lia| |done].
  rewrite le_value_lookup_default.
  assert (HD : Forall (λ d, 0 <= d < 16) (map char_to_uint8_t q)).
  { apply Forall_forall. intros d (c' & -> & _)%list_elem_of_fmap.
    apply char_to_uint8_t_range. }
  rewrite le_value_take_mod by done.
  apply Z.mod_pos_bound. lia.
Qed.

Lemma ksv_string_to_bitset_loop bits s :
  ksv_string_to_bitset bits s
  = kl ← for_loop (seq 0 16) (λ k kl, assign_u k (string_to_convert s) kl) 0;
    Some (to_bitset bits kl).
Proof.
  unfold ksv_string_to_bitset. cbv zeta. cbn [for_loop seq].
  repeat match goal with
  | |- context [assign_u ?k ?q ?x] =>
      destruct (assign_u k q x); cbn [mbind option_bind]; [|reflexivity]
  end.
  reflexivity.
Qed.

(** The parser, for every width and every string: the hexadecimal value of
    the string, most significant digit first, modulo [2^64] (the integer of
    the union), then truncated to the width of the bitset. *)
Lemma ksv_string_to_bitset_value bits s :
  ksv_string_to_bitset bits s
  = Some (to_bitset bits (hex_value s mod 2 ^ 64)).
Proof.
  rewrite ksv_string_to_bitset_loop, assign_loop
    by (pose proof (string_to_convert_length s); lia).
  cbn [mbind option_bind]. do 2 f_equal.
  rewrite le_value_lookup_default, le_value_take_mod.
  - rewrite string_to_convert_padded, <- hex_value_le_value.
    by rewrite hex_value_leading_zeros.
  - apply Forall_forall. intros d (c' & -> & _)%list_elem_of_fmap.
    apply char_to_uint8_t_range.
Qed.

Lemma mod_add_multiple a b c : 0 < c → (c * a + b) mod c = b mod c.
Proof. intros Hc. rewrite Z.add_comm, Z.mul_comm. apply Z.mod_add. lia. Qed.

Lemma to_bitset_le_64 bits x :
  (bits ≤ 64)%nat →
  to_bitset bits (x mod 2 ^ 64) = x mod 2 ^ Z.of_nat bits.
Proof.
  intros Hb. unfold to_bitset.
  replace 64 with (Z.of_nat bits + (64 - Z.of_nat bits)) by lia.
  rewrite Z.pow_add_r by lia.
  rewrite Z.rem_mul_r by lia.
  rewrite Z.add_comm, mod_add_multiple by lia.
  apply Z.mod_mod. lia.
Qed.

Lemma hex_value_app p t :
  hex_value (p ++ t) = 16 ^ Z.of_nat (length t) * hex_value p + hex_value t.
Proof.
  rewrite !hex_value_le_value, rev_app_distr, map_app, le_value_app.
  rewrite length_map, length_rev. lia.
Qed.

(** Only the last sixteen characters of a long string are read. *)
Lemma ksv_string_to_bitset_drop bits s :
  (16 ≤ length s)%nat →
  ksv_string_to_bitset bits s
  = ksv_string_to_bitset bits (drop (length s - 16) s).
Proof.
  intros Hs. rewrite !ksv_string_to_bitset_value. do 2 f_equal.
  rewrite <- (take_drop (length s - 16) s) at 1.
  rewrite hex_value_app, length_drop.
  replace (length s - (length s - 16))%nat with 16%nat by lia.
  change (16 ^ Z.of_nat 16) with (2 ^ 64).
  by rewrite mod_add_multiple by lia.
Qed.

(** ** The claims on the parser *)

(** C5, as the code has it.  For every width of at most 64 bits (40, 56
    and 64 are the ones instantiated) and every string [s], the parser
    right-aligns [s]: a string shorter than 15 characters gets
    [15 - length s] zeros, at least one, on its left before it is reversed
    and read, which covers every string shorter than the digit count
    [bits/4] for the widths up to 56; a string of 15 characters or more is
    read as it is; and the result is the value of [s] as a hexadecimal
    number, most significant digit first, truncated to [bits] bits. *)
Theorem ksv_string_to_bitset_right_aligned (bits : nat) (s : list ascii) :
  (bits ≤ 64)%nat →
  ((length s < 15)%nat →
     (0 < 15 - length s)%nat ∧
     string_to_convert s = rev (replicate (15 - length s) "0"%char ++ s)) ∧
  ((bits ≤ 56)%nat → (length s < bits / 4)%nat →
     (0 < 15 - length s)%nat ∧
     string_to_convert s = rev (replicate (15 - length s) "0"%char ++ s)) ∧
  ((15 ≤ length s)%nat → string_to_convert s = rev s) ∧
  ksv_string_to_bitset bits s = Some (hex_value s mod 2 ^ Z.of_nat bits).
Proof.
  intros Hbits. repeat split.
  - lia.
  - apply string_to_convert_padded.
  - assert (bits / 4 ≤ 14)%nat by (apply Nat.Div0.div_le_upper_bound; lia).
    lia.
  - apply string_to_convert_padded.
  - intros Hs. rewrite string_to_convert_padded.
    by replace (15 - length s)%nat with 0%nat by lia.
  - by rewrite ksv_string_to_bitset_value, to_bitset_le_64.
Qed.

(** C5 as stated fails for the width 64: a string of 15 characters is
    shorter than the 16 digits of the width, and no zero is put in front
    of it; it is read as it is (its sixteenth nibble is read from the
    terminator of the string). *)
Lemma ksv_string_to_bitset_unpadded_64 :
  (length (list_ascii_of_string "123456789abcdef") < 64 / 4)%nat ∧
  string_to_convert (list_ascii_of_string "123456789abcdef")
  = rev (list_ascii_of_string "123456789abcdef") ∧
  ¬ ∃ n, (0 < n)%nat ∧
      string_to_convert (list_ascii_of_string "123456789abcdef")
      = rev (replicate n "0"%char ++ list_ascii_of_string "123456789abcdef").
Proof.
  split; [vm_compute; lia|]. split; [reflexivity|].
  intros (n & Hn & Hpad).
  apply (f_equal (@length ascii)) in Hpad.
  rewrite length_rev, length_app, length_replicate in Hpad.
  change (length (string_to_convert
                    (list_ascii_of_string "123456789abcdef")))
    with 15%nat in Hpad.
  change (length (list_ascii_of_string "123456789abcdef"))
    with 15%nat in Hpad.
  lia.
Qed.

Lemma ksv_string_to_bitset_right_aligned_witness :
  ksv_string_to_bitset 64 (list_ascii_of_string "123456789abcdef")
  = Some (hex_value (list_ascii_of_string "123456789abcdef")
          mod 2 ^ Z.of_nat 64).
Proof.
  apply (ksv_string_to_bitset_right_aligned 64
           (list_ascii_of_string "123456789abcdef")).
  lia.
Defined.

(** C6. A character outside [0-9a-f] (an uppercase [A]-[F] included) is
    read as the nibble 0: [char_to_uint8_t] returns 0 for it, and a string
    in which it occurs parses to what the string with ["0"] in its place
    parses to.  No string makes the parser fail. *)
Theorem non_hex_character_is_zero (c : ascii) (bits : nat) (s1 s2 : list ascii) :
  is_lower_hex c = false →
  char_to_uint8_t c = 0 ∧
  ksv_string_to_bitset bits (s1 ++ c :: s2)
  = ksv_string_to_bitset bits (s1 ++ "0"%char :: s2) ∧
  ∀ s, is_Some (ksv_string_to_bitset bits s).
Proof.
  intros Hc. pose proof (char_to_uint8_t_other c Hc) as H0.
  split; [done|]. split.
  - rewrite !ksv_string_to_bitset_value. do 3 f_equal.
    rewrite !hex_value_app.
    change (c :: s2) with ([c] ++ s2).
    change ("0"%char :: s2) with (["0"%char] ++ s2).
    rewrite !hex_value_app. do 2 f_equal.
    unfold hex_value. cbn [foldl]. by rewrite H0.
  - intros s. rewrite ksv_string_to_bitset_value. by eexists.
Qed.

Lemma non_hex_character_is_zero_witness :
  char_to_uint8_t "F"%char = 0 ∧
  ksv_string_to_bitset 40 (list_ascii_of_string "00000" ++
                           "F"%char :: list_ascii_of_string "ffff")
  = ksv_string_to_bitset 40 (list_ascii_of_string "00000" ++
                             "0"%char :: list_ascii_of_string "ffff").
Proof.
  destruct (non_hex_character_is_zero "F"%char 40
              (list_ascii_of_string "00000") (list_ascii_of_string "ffff")
              eq_refl) as (H1 & H2 & _).
  exact (conj H1 H2).
Defined.

(** C9. For every width, two strings of 16 characters or more with the
    same last 16 characters parse to the same value: the characters before
    the last 16 have no effect. *)
Theorem ksv_string_to_bitset_last_16 (bits : nat) (s1 s2 : list ascii) :
  (16 ≤ length s1)%nat → (16 ≤ length s2)%nat →
  drop (length s1 - 16) s1 = drop (length s2 - 16) s2 →
  ksv_string_to_bitset bits s1 = ksv_string_to_bitset bits s2.
Proof.
  intros H1 H2 Hlast.
  rewrite (ksv_string_to_bitset_drop bits s1), (ksv_string_to_bitset_drop bits s2)
    by done.
  by rewrite Hlast.
Qed.

Lemma ksv_string_to_bitset_last_16_witness :
  ksv_string_to_bitset 64 (list_ascii_of_string "ff0123456789abcdef")
  = ksv_string_to_bitset 64 (list_ascii_of_string "0123456789abcdef").
Proof.
  apply (ksv_string_to_bitset_last_16 64
           (list_ascii_of_string "ff0123456789abcdef")
           (list_ascii_of_string "0123456789abcdef")).
  - vm_compute. lia.
  - vm_compute. lia.
  - reflexivity.
Defined.

(** ** The hexadecimal rendering *)

Lemma hex_digit_spec n :
  0 <= n < 16 →
  hex_map !! Z.to_nat n = Some (hex_digit n) ∧
  char_to_uint8_t (hex_digit n) = n ∧
  is_lower_hex (hex_digit n) = true.
Proof.
  intros Hn.
  assert (Hcases : n = 0 ∨ n = 1 ∨ n = 2 ∨ n = 3 ∨ n = 4 ∨ n = 5 ∨ n = 6 ∨
                   n = 7 ∨ n = 8 ∨ n = 9 ∨ n = 10 ∨ n = 11 ∨ n = 12 ∨
                   n = 13 ∨ n = 14 ∨ n = 15) by lia.
  repeat (destruct Hcases as [->|Hcases]; [by vm_compute|]).
  subst n. by vm_compute.
Qed.

Lemma low_nibble_bits x :
  x mod 16
  = Z.b2z (Z.testbit x 0) + 2 * Z.b2z (Z.testbit x 1)
    + 4 * Z.b2z (Z.testbit x 2) + 8 * Z.b2z (Z.testbit x 3).
Proof.
  rewrite !Z.testbit_spec' by lia.
  change (2 ^ 0) with 1. change (2 ^ 1) with 2.
  change (2 ^ 2) with 4. change (2 ^ 3) with 8.
  rewrite Z.div_1_r.
  pose proof (Z.div_mod x 2). pose proof (Z.mod_pos_bound x 2).
  pose proof (Z.div_mod x 4). pose proof (Z.mod_pos_bound x 4).
  pose proof (Z.div_mod x 8). pose proof (Z.mod_pos_bound x 8).
  pose proof (Z.div_mod x 16). pose proof (Z.mod_pos_bound x 16).
  pose proof (Z.div_mod (x / 2) 2). pose proof (Z.mod_pos_bound (x / 2) 2).
  pose proof (Z.div_mod (x / 4) 2). pose proof (Z.mod_pos_bound (x / 4) 2).
  pose proof (Z.div_mod (x / 8) 2). pose proof (Z.mod_pos_bound (x / 8) 2).
  lia.
Qed.

Lemma hex_bit_index bits num i k :
  (bits ≤ 64)%nat → (4 * i + 4 ≤ bits)%nat → (k < 4)%nat →
  bitset_get bits num
    (Z.to_nat (wrap64 ((Z.of_nat bits - 1) - Z.of_nat i * 4 - Z.of_nat k)))
  = Some (Z.testbit (num / 2 ^ (Z.of_nat bits - 4 - 4 * Z.of_nat i))
            (3 - Z.of_nat k)).
Proof.
  intros Hb Hi Hk. unfold wrap64.
  rewrite Z.mod_small by lia.
  rewrite bitset_get_lt by lia. f_equal.
  rewrite Z.div_pow2_bits by lia. f_equal. lia.
Qed.

(** The inner loop of [bitset_to_hex] computes the nibble of [num] that
    starts at bit [bits - 4 - 4*i]. *)
Lemma nibble_loop bits num i :
  (bits ≤ 64)%nat → (4 * i + 4 ≤ bits)%nat →
  for_loop (seq 0 4) (λ k nibble_value,
    let bit_in_num_index :=
      Z.to_nat (wrap64 ((Z.of_nat bits - 1) - Z.of_nat i * 4 - Z.of_nat k)) in
    b ← bitset_get bits num bit_in_num_index;
    Some (if b : bool
          then wrap8 (Z.lor nibble_value (Z.shiftl 1 (3 - Z.of_nat k)))
          else nibble_value)) 0
  = Some ((num / 2 ^ (Z.of_nat bits - 4 - 4 * Z.of_nat i)) mod 16).
Proof.
  intros Hb Hi. cbn [seq for_loop]. cbv zeta.
  rewrite !hex_bit_index by lia.
  rewrite low_nibble_bits.
  change (3 - Z.of_nat 0) with 3. change (3 - Z.of_nat 1) with 2.
  change (3 - Z.of_nat 2) with 1. change (3 - Z.of_nat 3) with 0.
  destruct (Z.testbit _ 3), (Z.testbit _ 2), (Z.testbit _ 1), (Z.testbit _ 0);
    reflexivity.
Qed.

(** The rendering: [bits/4] characters, the most significant nibble
    first. *)
Lemma bitset_to_hex_value bits m num :
  bits = (4 * m)%nat → (bits ≤ 64)%nat →
  bitset_to_hex bits num
  = Some (map (λ i, hex_digit (nibble_at num (m - 1 - i))) (seq 0 m)).
Proof.
  intros Hm Hb. unfold bitset_to_hex. cbv zeta.
  replace (bits / 4)%nat with m
    by (subst bits; by rewrite Nat.mul_comm, Nat.div_mul).
  rewrite (for_loop_ext _ _
    (λ i result,
       v ← (nibble_value ← for_loop (seq 0 4) (λ k nibble_value,
              b ← bitset_get bits num
                    (Z.to_nat (wrap64 ((Z.of_nat bits - 1)
                                       - Z.of_nat i * 4 - Z.of_nat k)));
              Some (if b : bool
                    then wrap8 (Z.lor nibble_value
                                  (Z.shiftl 1 (3 - Z.of_nat k)))
                    else nibble_value)) 0;
            hex_map !! Z.to_nat nibble_value);
       store result i v)).
  - rewrite (for_loop_store _
               (λ i, hex_digit (nibble_at num (m - 1 - i)))).
    + by rewrite drop_replicate, Nat.sub_diag, app_nil_r.
    + by rewrite length_replicate.
    + intros i Hi.
      assert (Hi4 : (4 * i + 4 ≤ bits)%nat) by lia.
      pose proof (nibble_loop bits num i Hb Hi4) as Hloop.
      cbv zeta in Hloop. rewrite Hloop. cbn [mbind option_bind].
      replace ((num / 2 ^ (Z.of_nat bits - 4 - 4 * Z.of_nat i)) mod 16)
        with (nibble_at num (m - 1 - i)).
      * apply hex_digit_spec. apply Z.mod_pos_bound. lia.
      * unfold nibble_at. do 2 f_equal.
        replace (Z.of_nat bits - 4 - 4 * Z.of_nat i)
          with (4 * Z.of_nat (m - 1 - i)) by lia.
        by rewrite Z.pow_mul_r by lia.
  - intros i result Hi.
    destruct (for_loop (seq 0 4) _ 0) as [nibble_value|];
      cbn [mbind option_bind]; [|done].
    by destruct (hex_map !! Z.to_nat nibble_value).
Qed.

Lemma rev_seq m : rev (seq 0 m) = map (λ k, m - 1 - k)%nat (seq 0 m).
Proof.
  induction m as [|m IH]; [done|].
  rewrite seq_S at 1. rewrite rev_app_distr, IH. cbn [rev app seq map].
  f_equal; [lia|].
  rewrite <- seq_shift, map_map. apply map_ext. intros k. lia.
Qed.

Lemma le_value_nibbles num m :
  0 <= num →
  le_value (map (nibble_at num) (seq 0 m)) = num mod 16 ^ Z.of_nat m.
Proof.
  intros Hnum. induction m as [|m IH].
  - change (16 ^ Z.of_nat 0) with 1. by rewrite Z.mod_1_r.
  - rewrite seq_S, map_app, le_value_app, IH, length_map, length_seq.
    cbn [map Nat.add]. rewrite le_value_cons. change (le_value []) with 0.
    rewrite Nat2Z.inj_succ, Z.pow_succ_r by lia.
    rewrite (Z.mul_comm 16 (16 ^ Z.of_nat m)), Z.rem_mul_r by lia.
    unfold nibble_at. lia.
Qed.

(** The value of the rendering is the number rendered. *)
Lemma hex_value_rendering num m :
  0 <= num →
  hex_value (map (λ i, hex_digit (nibble_at num (m - 1 - i))) (seq 0 m))
  = num mod 16 ^ Z.of_nat m.
Proof.
  intros Hnum.
  rewrite hex_value_le_value, <- map_rev, rev_seq, !map_map.
  rewrite <- (le_value_nibbles num m Hnum). f_equal.
  apply map_ext_in. intros k Hk%in_seq.
  replace (m - 1 - (m - 1 - k))%nat with k by lia.
  apply hex_digit_spec. apply Z.mod_pos_bound. lia.
Qed.

(** Rendering, then parsing, for every width that is a multiple of 4 and
    at most 64. *)
Lemma hex_round_trip bits m v :
  bits = (4 * m)%nat → (bits ≤ 64)%nat → bitset_wf bits v = true →
  ∃ h, bitset_to_hex bits v = Some h ∧
       length h = (bits / 4)%nat ∧
       Forall (λ c, is_lower_hex c = true) h ∧
       hex_value h = v ∧
       ksv_string_to_bitset bits h = Some v.
Proof.
  intros Hm Hb [H0 Hv]%andb_true_iff.
  apply Z.leb_le in H0. apply Z.ltb_lt in Hv.
  assert (H16 : 16 ^ Z.of_nat m = 2 ^ Z.of_nat bits).
  { subst bits. rewrite Nat2Z.inj_mul, Z.pow_mul_r by lia. done. }
  eexists. split; [by apply bitset_to_hex_value|].
  assert (Hval : hex_value
            (map (λ i, hex_digit (nibble_at v (m - 1 - i))) (seq 0 m)) = v)
    by (rewrite hex_value_rendering, H16, Z.mod_small by lia; done).
  repeat split.
  - rewrite length_map, length_seq. subst bits.
    by rewrite Nat.mul_comm, Nat.div_mul.
  - apply Forall_forall. intros c (i & -> & _)%list_elem_of_fmap.
    apply hex_digit_spec. apply Z.mod_pos_bound. lia.
  - done.
  - rewrite ksv_string_to_bitset_value, to_bitset_le_64, Hval by done.
    by rewrite Z.mod_small by lia.
Qed.

(** C4. For the widths 40 and 56 and every value [v] of the bitset,
    [bitset_to_hex] returns a string [h] of [bits/4] characters, all in
    [0-9a-f], whose hexadecimal value is [v], and [ksv_string_to_bitset]
    on [h] gives back [v]. *)
Theorem hex_round_trip_40_56 (bits : nat) (v : Z) :
  bits = 40%nat ∨ bits = 56%nat →
  bitset_wf bits v = true →
  ∃ h, bitset_to_hex bits v = Some h ∧
       length h = (bits / 4)%nat ∧
       Forall (λ c, is_lower_hex c = true) h ∧
       hex_value h = v ∧
       ksv_string_to_bitset bits h = Some v.
Proof.
  intros [->| ->] Hv.
  - apply (hex_round_trip 40 10); [reflexivity | lia | done].
  - apply (hex_round_trip 56 14); [reflexivity | lia | done].
Qed.

Lemma hex_round_trip_40_56_witness :
  ∃ h, bitset_to_hex 56 0xfedcba98765432 = Some h ∧
       length h = (56 / 4)%nat ∧
       Forall (λ c, is_lower_hex c = true) h ∧
       hex_value h = 0xfedcba98765432 ∧
       ksv_string_to_bitset 56 h = Some 0xfedcba98765432.
Proof.
  apply (hex_round_trip_40_56 56 0xfedcba98765432).
  - right. reflexivity.
  - vm_compute. reflexivity.
Defined.

(** ** [random_ksv] *)

Lemma low_20_bits idx :
  Z.testbit 0x00000fffff (Z.of_nat idx) = bool_decide (idx < 20)%nat.
Proof.
  change 0x00000fffff with (Z.ones 20).
  rewrite Z.testbit_ones_nonneg by lia.
  case_bool_decide; [apply Z.ltb_lt | apply Z.ltb_ge]; lia.
Qed.

Lemma filter_length_map {A B} (P : A → Prop) (Q : B → Prop)
    `{∀ x, Decision (P x)} `{∀ y, Decision (Q y)} (f : A → B) (l : list A) :
  (∀ x, x ∈ l → P x ↔ Q (f x)) →
  length (filter P l) = length (filter Q (map f l)).
Proof.
  induction l as [|x l IH]; intros HPQ; [done|].
  cbn [map]. rewrite !filter_cons.
  assert (Hx : P x ↔ Q (f x)) by (apply HPQ; left).
  assert (Hl : length (filter P l) = length (filter Q (map f l)))
    by (apply IH; intros y Hy; apply HPQ; by right).
  destruct (decide (P x)), (decide (Q (f x))); cbn [length]; tauto || lia.
Qed.

Lemma list_as_lookups {A} (d : A) (l : list A) :
  map (λ j, default d (l !! j)) (seq 0 (length l)) = l.
Proof.
  apply list_eq. intros i.
  change (map ?f ?l) with (f <$> l). rewrite list_lookup_fmap.
  destruct (decide (i < length l)%nat) as [Hi|Hi].
  - rewrite lookup_seq_lt by done. cbn [fmap option_fmap option_map Nat.add].
    by destruct (lookup_lt_is_Some_2 l i Hi) as [x ->].
  - rewrite lookup_seq_ge, lookup_ge_None_2 by lia. done.
Qed.

(** The copy loop of [random_ksv]: bit [j] of the result is bit
    [indices[j]] of the pattern. *)
Lemma shuffle_loop (indices : list nat) n :
  (n ≤ 40)%nat → (n ≤ length indices)%nat →
  Forall (λ idx, (idx < 40)%nat) indices →
  ∃ v, for_loop (seq 0 n) (λ i shuffled_bs,
         idx ← indices !! i;
         b ← bitset_get 40 0x00000fffff idx;
         bitset_set 40 shuffled_bs i b) 0 = Some v ∧
       ∀ j, Z.testbit v (Z.of_nat j)
            = bool_decide (j < n)%nat &&
              bool_decide (default 0%nat (indices !! j) < 20)%nat.
Proof.
  intros Hn Hlen Hidx. induction n as [|n IH].
  - exists 0. split; [done|]. intros j. rewrite Z.bits_0.
    by rewrite bool_decide_eq_false_2 by lia.
  - destruct IH as (v & Hv & Hbits); [lia | lia |].
    rewrite seq_S, for_loop_app, Hv. cbn [mbind option_bind for_loop Nat.add].
    destruct (lookup_lt_is_Some_2 indices n) as [idx Hi]; [lia|].
    rewrite Hi. cbn [mbind option_bind].
    assert (Hlt : (idx < 40)%nat).
    { rewrite Forall_forall in Hidx. apply Hidx.
      apply list_elem_of_lookup. eauto. }
    rewrite bitset_get_lt by done. cbn [mbind option_bind].
    unfold bitset_set. destruct (Nat.ltb_spec n 40) as [_|]; [|lia].
    eexists. split; [reflexivity|]. intros j.
    rewrite low_20_bits.
    destruct (decide (j = n)) as [->|Hj].
    + rewrite Hi. cbn [default from_option id].
      rewrite (bool_decide_eq_true_2 (n < S n)%nat) by lia.
      destruct (bool_decide (idx < 20)%nat).
      * rewrite Z.setbit_eqb, Z.eqb_refl by lia. done.
      * rewrite Z.clearbit_eqb, Z.eqb_refl. cbn. apply andb_false_r.
    + assert (Hne : (Z.of_nat n =? Z.of_nat j) = false)
        by (apply Z.eqb_neq; lia).
      assert (Hsame : bool_decide (j < S n)%nat = bool_decide (j < n)%nat)
        by (apply bool_decide_ext; lia).
      rewrite Hsame, <- Hbits.
      destruct (bool_decide (idx < 20)%nat).
      * rewrite Z.setbit_eqb, Hne by lia. done.
      * rewrite Z.clearbit_eqb, Hne. apply andb_true_r.
Qed.

Section RandomKsv.
Variable shuffle : list nat → list nat.
Hypothesis shuffle_permutes : Permutation (seq 0 40) (shuffle (seq 0 40)).

Lemma shuffled_indices :
  length (shuffle (seq 0 40)) = 40%nat ∧
  Forall (λ idx, (idx < 40)%nat) (shuffle (seq 0 40)).
Proof.
  split.
  - by rewrite <- (Permutation_length shuffle_permutes).
  - apply Forall_forall. intros idx Hin.
    rewrite <- shuffle_permutes in Hin. apply elem_of_seq in Hin. lia.
Qed.

End RandomKsv.

(** C7. Whatever permutation of the 40 bit positions the shuffle
    produces, [random_ksv] returns a KSV, and its Hamming weight is 20. *)
Theorem random_ksv_weight_20 (shuffle : list nat → list nat) :
  Permutation (seq 0 40) (shuffle (seq 0 40)) →
  ∃ ksv, random_ksv shuffle = Some ksv ∧ bitset_count 40 ksv = 20%nat.
Proof.
  intros Hperm.
  destruct (shuffled_indices shuffle Hperm) as [Hlen Hidx].
  destruct (shuffle_loop (shuffle (seq 0 40)) 40) as (v & Hv & Hbits);
    [lia | lia | done |].
  exists v. split; [exact Hv|].
  unfold bitset_count.
  rewrite (filter_length_map _ (λ idx, (idx < 20)%nat)
             (λ j, default 0%nat (shuffle (seq 0 40) !! j))).
  - rewrite <- Hlen at 1. rewrite list_as_lookups.
    rewrite <- Hperm. reflexivity.
  - intros j Hj%elem_of_seq. rewrite Hbits.
    rewrite (bool_decide_eq_true_2 (j < 40)%nat) by lia.
    cbn [andb]. apply bool_decide_eq_true.
Qed.

Lemma random_ksv_weight_20_witness :
  ∃ ksv, random_ksv (@rev nat) = Some ksv ∧ bitset_count 40 ksv = 20%nat.
Proof.
  apply (random_ksv_weight_20 (@rev nat)).
  apply Permutation_rev.
Defined.

(** * Further properties of the derivations *)

Lemma derive_shape ksv key idx :
  (∀ i z, (i < 40)%nat → (z < 40)%nat → (idx i z < length key)%nat) →
  ∃ w, derive ksv key idx = Some (map (λ i, w i mod 2 ^ 56) (seq 0 40)).
Proof.
  intros Hidx.
  exists (λ i, default 0
                 (for_loop (seq 0 40) (accumulate_step ksv key (idx i)) 0)).
  apply derive_value. intros i Hi.
  destruct (accumulate_total ksv key (idx i) (seq 0 40) 0) as [t ->]; [|done].
  apply Forall_forall. intros z Hz%elem_of_seq. split; [lia|].
  apply Hidx; lia.
Qed.

Lemma derive_entries ksv key idx r :
  (∀ i z, (i < 40)%nat → (z < 40)%nat → (idx i z < length key)%nat) →
  derive ksv key idx = Some r →
  length r = 40%nat ∧ Forall (λ x, bitset_wf 56 x = true) r.
Proof.
  intros Hidx Hr. destruct (derive_shape ksv key idx Hidx) as [w Hw].
  assert (r = map (λ i, w i mod 2 ^ 56) (seq 0 40)) as -> by congruence.
  split.
  - by rewrite length_map, length_seq.
  - apply Forall_forall. intros x (i & -> & _)%list_elem_of_fmap.
    unfold bitset_wf. change (Z.of_nat 56) with 56.
    pose proof (Z.mod_pos_bound (w i) (2 ^ 56)).
    apply andb_true_iff. split; [apply Z.leb_le | apply Z.ltb_lt]; lia.
Qed.

(** Every entry of a derived key is a 56-bit value: its rendering has 14
    hexadecimal digits and parses back to the entry. *)
Theorem derived_keys_round_trip (ksv : Z) (key r : list Z) :
  length key = 1600%nat →
  generate_source ksv key = Some r ∨ generate_sink ksv key = Some r →
  length r = 40%nat ∧
  ∀ x, x ∈ r →
    bitset_wf 56 x = true ∧
    ∃ h, bitset_to_hex 56 x = Some h ∧ length h = 14%nat ∧
         ksv_string_to_bitset 56 h = Some x.
Proof.
  intros Hlen Hr.
  assert (Hent : length r = 40%nat ∧ Forall (λ x, bitset_wf 56 x = true) r).
  { destruct Hr as [Hr|Hr].
    - rewrite generate_source_derive in Hr.
      apply (derive_entries ksv key (λ i z, z * 40 + i)%nat);
        [intros; cbv beta; lia | done].
    - rewrite generate_sink_derive in Hr.
      apply (derive_entries ksv key (λ i z, i * 40 + z)%nat);
        [intros; cbv beta; lia | done]. }
  destruct Hent as [Hl Hall]. split; [done|].
  intros x Hx. rewrite Forall_forall in Hall. specialize (Hall x Hx).
  split; [done|].
  destruct (hex_round_trip 56 14 x) as (h & Hh & Hlh & _ & _ & Hp);
    [reflexivity | lia | done |].
  exists h. by repeat split.
Qed.

Lemma derived_keys_round_trip_witness :
  length (replicate 40 ((20 * 0xffffffffffffff) mod 2 ^ 56)) = 40%nat ∧
  ∀ x, x ∈ replicate 40 ((20 * 0xffffffffffffff) mod 2 ^ 56) →
    bitset_wf 56 x = true ∧
    ∃ h, bitset_to_hex 56 x = Some h ∧ length h = 14%nat ∧
         ksv_string_to_bitset 56 h = Some x.
Proof.
  apply (derived_keys_round_trip 0x00000fffff
           (replicate 1600 0xffffffffffffff)
           (replicate 40 ((20 * 0xffffffffffffff) mod 2 ^ 56))).
  - reflexivity.
  - left. vm_compute. reflexivity.
Defined.

Lemma accumulate_no_bit ksv key idx zs temp :
  Forall (λ z, (z < 40)%nat ∧ Z.testbit ksv (Z.of_nat z) = false) zs →
  for_loop zs (accumulate_step ksv key idx) temp = Some temp.
Proof.
  induction 1 as [|z zs [Hz Hb] _ IH]; [done|].
  cbn [for_loop]. rewrite accumulate_step_lt, Hb by done.
  cbn [mbind option_bind]. apply IH.
Qed.

(** A KSV with none of its 40 bits set reads no matrix entry: whatever
    the matrix, even one that is too short, both derived keys are forty
    zeros. *)
Theorem derivations_of_empty_ksv (ksv : Z) (key : list Z) :
  (∀ z, (z < 40)%nat → Z.testbit ksv (Z.of_nat z) = false) →
  generate_source ksv key = Some (replicate 40 0) ∧
  generate_sink ksv key = Some (replicate 40 0).
Proof.
  intros Hbits.
  assert (H : ∀ idx, derive ksv key idx = Some (replicate 40 0)).
  { intros idx. rewrite (derive_value ksv key idx (λ _, 0)); [done|].
    intros i Hi. apply accumulate_no_bit.
    apply Forall_forall. intros z Hz%elem_of_seq. split; [lia|].
    apply Hbits. lia. }
  by rewrite generate_source_derive, generate_sink_derive, !H.
Qed.

Lemma derivations_of_empty_ksv_witness :
  generate_source 0 [] = Some (replicate 40 0) ∧
  generate_sink 0 [] = Some (replicate 40 0).
Proof.
  apply (derivations_of_empty_ksv 0 []).
  intros z Hz. apply Z.bits_0.
Defined.

Lemma partial_sum_cons ksv key idx z zs :
  partial_sum ksv key idx (z :: zs)
  = (if Z.testbit ksv (Z.of_nat z) then default 0 (key !! idx z) else 0)
    + partial_sum ksv key idx zs.
Proof.
  unfold partial_sum. rewrite filter_cons.
  destruct (decide (Z.testbit ksv (Z.of_nat z) = true)) as [Hb|Hb].
  - by rewrite Hb.
  - apply not_true_is_false in Hb. by rewrite Hb.
Qed.

Lemma partial_sum_nil ksv key idx : partial_sum ksv key idx [] = 0.
Proof. reflexivity. Qed.

(** The sum selected by two KSVs without a common bit is the sum of the
    two selections. *)
Lemma partial_sum_disjoint a b key idx zs :
  Z.land a b = 0 →
  partial_sum (Z.lor a b) key idx zs
  = partial_sum a key idx zs + partial_sum b key idx zs.
Proof.
  intros Hab. induction zs as [|z zs IH]; [done|].
  rewrite !partial_sum_cons, IH, Z.lor_spec.
  assert (Hz : Z.testbit a (Z.of_nat z) && Z.testbit b (Z.of_nat z) = false)
    by (rewrite <- Z.land_spec, Hab; apply Z.bits_0).
  destruct (Z.testbit a (Z.of_nat z)), (Z.testbit b (Z.of_nat z));
    cbn [orb]; try discriminate Hz; lia.
Qed.

Lemma derive_disjoint a b key idx :
  matrix_wf key = true →
  (∀ i z, (i < 40)%nat → (z < 40)%nat → (idx i z < 1600)%nat) →
  Z.land a b = 0 →
  ∃ ra rb,
    derive a key idx = Some ra ∧ derive b key idx = Some rb ∧
    derive (Z.lor a b) key idx
    = Some (zip_with (λ x y, (x + y) mod 2 ^ 56) ra rb).
Proof.
  intros Hwf Hidx Hab.
  destruct (derive_exact a key idx Hwf Hidx) as [Ha _].
  destruct (derive_exact b key idx Hwf Hidx) as [Hb _].
  destruct (derive_exact (Z.lor a b) key idx Hwf Hidx) as [Hab' _].
  do 2 eexists. split; [exact Ha|]. split; [exact Hb|].
  rewrite Hab'. f_equal.
  change (map ?f ?l) with (f <$> l).
  rewrite zip_with_fmap_l, zip_with_fmap_r, zip_with_diag.
  apply list_fmap_ext. intros _ i _.
  unfold selected_sum. rewrite partial_sum_disjoint by done.
  by rewrite <- Z.add_mod by lia.
Qed.

(** The derivations are additive in the KSV: for two KSVs without a common
    bit, the key derived from their union is the entry-wise sum, modulo
    [2^56], of the keys derived from each. *)
Theorem derivations_additive (a b : Z) (key : list Z) :
  matrix_wf key = true →
  Z.land a b = 0 →
  (∃ ra rb,
     generate_source a key = Some ra ∧ generate_source b key = Some rb ∧
     generate_source (Z.lor a b) key
     = Some (zip_with (λ x y, (x + y) mod 2 ^ 56) ra rb)) ∧
  (∃ ra rb,
     generate_sink a key = Some ra ∧ generate_sink b key = Some rb ∧
     generate_sink (Z.lor a b) key
     = Some (zip_with (λ x y, (x + y) mod 2 ^ 56) ra rb)).
Proof.
  intros Hwf Hab. split.
  - destruct (derive_disjoint a b key (λ i z, z * 40 + i)%nat Hwf)
      as (ra & rb & Ha & Hb & Hor); [intros; lia | done |].
    by exists ra, rb.
  - destruct (derive_disjoint a b key (λ i z, i * 40 + z)%nat Hwf)
      as (ra & rb & Ha & Hb & Hor); [intros; lia | done |].
    by exists ra, rb.
Qed.

Lemma derivations_additive_witness :
  ∃ ra rb,
    generate_source 0x00000003ff (replicate 1600 0xffffffffffffff) = Some ra ∧
    generate_source 0x00000ffc00 (replicate 1600 0xffffffffffffff) = Some rb ∧
    generate_source (Z.lor 0x00000003ff 0x00000ffc00)
      (replicate 1600 0xffffffffffffff)
    = Some (zip_with (λ x y, (x + y) mod 2 ^ 56) ra rb).
Proof.
  apply (derivations_additive 0x00000003ff 0x00000ffc00
           (replicate 1600 0xffffffffffffff)).
  - vm_compute. reflexivity.
  - reflexivity.
Defined.

(** ** The pairing of source and sink keys *)

Lemma sum_map_add {A} (f g : A → Z) l :
  foldr Z.add 0 (map (λ y, f y + g y) l)
  = foldr Z.add 0 (map f l) + foldr Z.add 0 (map g l).
Proof. induction l as [|y l IH]; cbn [map foldr]; lia. Qed.

Lemma sum_swap {A B} (f : A → B → Z) l1 l2 :
  foldr Z.add 0 (map (λ x, foldr Z.add 0 (map (f x) l2)) l1)
  = foldr Z.add 0 (map (λ y, foldr Z.add 0 (map (λ x, f x y) l1)) l2).
Proof.
  induction l1 as [|x l1 IH]; cbn [map foldr].
  - induction l2 as [|y l2 IH2]; cbn [map foldr]; lia.
  - rewrite IH, <- sum_map_add. reflexivity.
Qed.

Lemma sum_map_mod {A} (f : A → Z) l m :
  0 < m →
  foldr Z.add 0 (map (λ x, f x mod m) l) mod m
  = foldr Z.add 0 (map f l) mod m.
Proof.
  intros Hm. induction l as [|x l IH]; cbn [map foldr]; [done|].
  rewrite Z.add_mod, IH, Z.mod_mod, <- Z.add_mod by lia. reflexivity.
Qed.

(** A sum selected from a derived key, in terms of the sums that define
    its entries. *)
Lemma selected_sum_of_derived ksv (w : nat → Z) :
  selected_sum ksv (map (λ i, w i mod 2 ^ 56) (seq 0 40)) (λ z, z) mod 2 ^ 56
  = foldr Z.add 0
      (map w (filter (λ z, Z.testbit ksv (Z.of_nat z) = true) (seq 0 40)))
    mod 2 ^ 56.
Proof.
  unfold selected_sum, partial_sum.
  rewrite <- (sum_map_mod w) by lia. do 2 f_equal.
  change (map ?f ?l) with (f <$> l).
  apply list_fmap_ext. intros _ z Hz%list_elem_of_lookup_2.
  apply list_elem_of_filter in Hz as [_ Hz%elem_of_seq].
  rewrite list_lookup_fmap, lookup_seq_lt by lia. reflexivity.
Qed.

(** The shared secret of HDCP 1.x.  Device A holds the source key derived
    from its KSV [a], device B the sink key derived from its KSV [b].  A
    adds up the entries of its key that the bits of [b] select, B the
    entries of its key that the bits of [a] select: modulo [2^56] the two
    sums agree. *)
Theorem source_sink_shared_secret (a b : Z) (key srcA snkB : list Z) :
  matrix_wf key = true →
  generate_source a key = Some srcA →
  generate_sink b key = Some snkB →
  selected_sum b srcA (λ z, z) mod 2 ^ 56
  = selected_sum a snkB (λ z, z) mod 2 ^ 56.
Proof.
  intros Hwf HA HB.
  rewrite generate_source_derive in HA. rewrite generate_sink_derive in HB.
  destruct (derive_exact a key (λ i z, z * 40 + i)%nat Hwf) as [HA' _];
    [intros; lia|].
  destruct (derive_exact b key (λ i z, i * 40 + z)%nat Hwf) as [HB' _];
    [intros; lia|].
  assert (srcA = map (λ i, selected_sum a key (λ z, z * 40 + i)%nat
                            mod 2 ^ 56) (seq 0 40)) as -> by congruence.
  assert (snkB = map (λ i, selected_sum b key (λ z, i * 40 + z)%nat
                            mod 2 ^ 56) (seq 0 40)) as -> by congruence.
  rewrite (selected_sum_of_derived b
             (λ i, selected_sum a key (λ z, z * 40 + i)%nat)).
  rewrite (selected_sum_of_derived a
             (λ i, selected_sum b key (λ z, i * 40 + z)%nat)).
  f_equal. unfold selected_sum, partial_sum.
  apply (sum_swap (λ i z, default 0 (key !! (z * 40 + i)%nat))).
Qed.

Lemma source_sink_shared_secret_witness :
  selected_sum 0xfffff00000
    (map (λ i, selected_sum 0x00000fffff (map Z.of_nat (seq 0 1600))
                 (λ z, z * 40 + i)%nat mod 2 ^ 56) (seq 0 40))
    (λ z, z) mod 2 ^ 56
  = selected_sum 0x00000fffff
      (map (λ i, selected_sum 0xfffff00000 (map Z.of_nat (seq 0 1600))
                   (λ z, i * 40 + z)%nat mod 2 ^ 56) (seq 0 40))
      (λ z, z) mod 2 ^ 56.
Proof.
  apply (source_sink_shared_secret 0x00000fffff 0xfffff00000
           (map Z.of_nat (seq 0 1600))).
  - vm_compute. reflexivity.
  - vm_compute. reflexivity.
  - vm_compute. reflexivity.
Defined.

(** * Further properties of the hexadecimal codecs *)

(** Zeros in front of a string do not change what it parses to, whatever
    the width and however long the string gets; the empty string and a
    string of zeros parse to 0. *)
Theorem ksv_string_to_bitset_leading_zeros (bits n : nat) (s : list ascii) :
  ksv_string_to_bitset bits (replicate n "0"%char ++ s)
  = ksv_string_to_bitset bits s ∧
  ksv_string_to_bitset bits (replicate n "0"%char) = Some 0.
Proof.
  split.
  - by rewrite !ksv_string_to_bitset_value, hex_value_leading_zeros.
  - rewrite <- (app_nil_r (replicate n "0"%char)).
    by rewrite ksv_string_to_bitset_value, hex_value_leading_zeros.
Qed.

(** For a width of [4*m] bits, only the last [m] characters of a string
    count: whatever precedes them is dropped without notice. *)
Theorem ksv_string_to_bitset_last_digits
    (bits m : nat) (p t : list ascii) :
  bits = (4 * m)%nat → (bits ≤ 64)%nat → length t = m →
  ksv_string_to_bitset bits (p ++ t) = ksv_string_to_bitset bits t.
Proof.
  intros Hm Hb Ht.
  rewrite !ksv_string_to_bitset_value, !to_bitset_le_64 by done.
  f_equal. rewrite hex_value_app, Ht.
  replace (16 ^ Z.of_nat m) with (2 ^ Z.of_nat bits)
    by (subst bits; rewrite Nat2Z.inj_mul, Z.pow_mul_r by lia; done).
  apply mod_add_multiple. lia.
Qed.

Lemma ksv_string_to_bitset_last_digits_witness :
  ksv_string_to_bitset 40
    (list_ascii_of_string "ff" ++ list_ascii_of_string "00000fffff")
  = ksv_string_to_bitset 40 (list_ascii_of_string "00000fffff").
Proof.
  apply (ksv_string_to_bitset_last_digits 40 10
           (list_ascii_of_string "ff") (list_ascii_of_string "00000fffff")).
  - reflexivity.
  - lia.
  - reflexivity.
Defined.

Lemma nibble_at_le_value D k :
  Forall (λ d, 0 <= d < 16) D →
  nibble_at (le_value D) k = default 0 (D !! k).
Proof.
  intros HD. revert k. induction HD as [|d D Hd HD IH]; intros k.
  - unfold nibble_at. change (le_value []) with 0.
    by rewrite Z.div_0_l by lia.
  - rewrite le_value_cons. destruct k as [|k].
    + unfold nibble_at. change (16 ^ Z.of_nat 0) with 1.
      rewrite Z.div_1_r, (Z.add_comm d), mod_add_multiple by lia.
      by rewrite Z.mod_small.
    + cbn [lookup list_lookup]. rewrite <- IH. unfold nibble_at.
      rewrite Nat2Z.inj_succ, Z.pow_succ_r by lia.
      rewrite <- Z.div_div by lia.
      rewrite (Z.add_comm d), (Z.mul_comm 16 (le_value D)), Z.div_add_l
        by lia.
      rewrite (Z.div_small d) by lia. by rewrite Z.add_0_r.
Qed.

Lemma rev_lookup {A} (l : list A) i :
  (i < length l)%nat → rev l !! i = l !! (length l - S i)%nat.
Proof.
  intros Hi. rewrite rev_alt. by apply (reverse_lookup l i).
Qed.

Lemma hex_digit_of_char c :
  is_lower_hex c = true → hex_digit (char_to_uint8_t c) = c.
Proof.
  destruct c as [[] [] [] [] [] [] [] []]; vm_compute; intros H;
    first [reflexivity | discriminate H].
Qed.

(** Parsing, then rendering: a string of exactly [bits/4] characters of
    [0-9a-f] is given back unchanged. *)
Theorem parse_then_render (bits m : nat) (h : list ascii) :
  bits = (4 * m)%nat → (bits ≤ 64)%nat → length h = m →
  Forall (λ c, is_lower_hex c = true) h →
  ∃ v, ksv_string_to_bitset bits h = Some v ∧
       bitset_wf bits v = true ∧
       bitset_to_hex bits v = Some h.
Proof.
  intros Hm Hb Hlen Hhex.
  assert (HD : Forall (λ d, 0 <= d < 16) (map char_to_uint8_t (rev h))).
  { apply Forall_forall. intros d (c & -> & _)%list_elem_of_fmap.
    apply char_to_uint8_t_range. }
  pose proof (le_value_range _ HD) as Hrange.
  rewrite length_map, length_rev, Hlen, <- hex_value_le_value in Hrange.
  assert (H16 : 16 ^ Z.of_nat m = 2 ^ Z.of_nat bits)
    by (subst bits; rewrite Nat2Z.inj_mul, Z.pow_mul_r by lia; done).
  exists (hex_value h). split; [|split].
  - rewrite ksv_string_to_bitset_value, to_bitset_le_64 by done.
    by rewrite Z.mod_small by lia.
  - unfold bitset_wf. apply andb_true_iff.
    split; [apply Z.leb_le | apply Z.ltb_lt]; lia.
  - rewrite (bitset_to_hex_value bits m) by done. f_equal.
    etransitivity; [|apply (list_as_lookups "0"%char h)]. rewrite Hlen.
    apply map_ext_in. intros i Hi%in_seq.
    rewrite hex_value_le_value, nibble_at_le_value by done.
    change (map char_to_uint8_t (rev h)) with (char_to_uint8_t <$> rev h).
    rewrite list_lookup_fmap.
    assert (Hrev : rev h !! (m - 1 - i)%nat = h !! i).
    { rewrite rev_lookup by lia. f_equal. lia. }
    rewrite Hrev.
    destruct (lookup_lt_is_Some_2 h i) as [c Hc]; [lia|]. rewrite Hc.
    cbn [fmap option_fmap option_map default from_option id].
    apply hex_digit_of_char.
    rewrite Forall_forall in Hhex. apply Hhex.
    apply list_elem_of_lookup. eauto.
Qed.

Lemma parse_then_render_witness :
  ∃ v, ksv_string_to_bitset 40 (list_ascii_of_string "a5c3e10f7b") = Some v ∧
       bitset_wf 40 v = true ∧
       bitset_to_hex 40 v = Some (list_ascii_of_string "a5c3e10f7b").
Proof.
  apply (parse_then_render 40 10 (list_ascii_of_string "a5c3e10f7b")).
  - reflexivity.
  - lia.
  - reflexivity.
  - repeat constructor.
Defined.

(** * Further properties of [random_ksv] *)

Lemma for_loop_invariant {St} (P : St → Prop) l
    (body : nat → St → option St) s r :
  P s →
  (∀ i s s', i ∈ l → P s → body i s = Some s' → P s') →
  for_loop l body s = Some r → P r.
Proof.
  revert s. induction l as [|i l IH]; intros s Hs Hstep Hrun.
  - cbn [for_loop] in Hrun. congruence.
  - cbn [for_loop] in Hrun.
    destruct (body i s) as [s'|] eqn:Hbody; [|done].
    cbn [mbind option_bind] in Hrun.
    apply (IH s'); [|intros j t t' Hj; apply Hstep; by right|done].
    apply (Hstep i s); [by left | done | done].
Qed.

(** A non-negative integer fits [n] bits exactly when none of its bits
    from [n] on is set. *)
Lemma below_pow2_bits v n :
  0 <= v → 0 <= n →
  (∀ j, n <= j → Z.testbit v j = false) → v < 2 ^ n.
Proof.
  intros Hv Hn Hbits.
  destruct (decide (v = 0)) as [->|Hv0]; [apply Z.pow_pos_nonneg; lia|].
  apply Z.log2_lt_pow2; [lia|].
  destruct (decide (Z.log2 v < n)) as [|Hge]; [done|].
  assert (Hpos : 0 < v) by lia.
  pose proof (Z.bit_log2 v Hpos) as Htop.
  rewrite Hbits in Htop by lia. discriminate Htop.
Qed.

(** Writing a bit of a bitset keeps the value within its width. *)
Lemma bitset_set_wf bits v pos x v' :
  bitset_wf bits v = true →
  bitset_set bits v pos x = Some v' →
  bitset_wf bits v' = true.
Proof.
  unfold bitset_wf, bitset_set.
  intros [H0 Hv]%andb_true_iff Hset.
  apply Z.leb_le in H0. apply Z.ltb_lt in Hv.
  destruct (Nat.ltb_spec pos bits) as [Hpos|]; [|done].
  injection Hset as <-.
  assert (Hhigh : ∀ j, Z.of_nat bits <= j → Z.testbit v j = false).
  { intros j Hj. destruct (decide (v = 0)) as [->|]; [apply Z.bits_0|].
    apply Z.bits_above_log2; [lia|].
    apply Z.lt_le_trans with (Z.of_nat bits); [|done].
    apply Z.log2_lt_pow2; lia. }
  apply andb_true_iff.
  destruct x; (split; [apply Z.leb_le | apply Z.ltb_lt]).
  - unfold Z.setbit. apply Z.lor_nonneg. split; [done|].
    apply Z.shiftl_nonneg. lia.
  - apply below_pow2_bits; [|lia|].
    + unfold Z.setbit. apply Z.lor_nonneg. split; [done|].
      apply Z.shiftl_nonneg. lia.
    + intros j Hj. rewrite Z.setbit_eqb by lia.
      rewrite Hhigh by done.
      destruct (Z.eqb_spec (Z.of_nat pos) j); [lia | done].
  - unfold Z.clearbit. apply Z.ldiff_nonneg. by left.
  - apply below_pow2_bits; [|lia|].
    + unfold Z.clearbit. apply Z.ldiff_nonneg. by left.
    + intros j Hj. rewrite Z.clearbit_eqb. by rewrite Hhigh by done.
Qed.

Lemma random_ksv_wf shuffle v :
  random_ksv shuffle = Some v → bitset_wf 40 v = true.
Proof.
  intros Hv. unfold random_ksv in Hv. cbv zeta in Hv.
  refine (for_loop_invariant (λ v, bitset_wf 40 v = true) _ _ _ _ _ _ Hv);
    [reflexivity|].
  intros i s s' _ Hs Hbody.
  destruct (shuffle (seq 0 40) !! i) as [idx|];
    cbn [mbind option_bind] in Hbody; [|done].
  destruct (bitset_get 40 0x00000fffff idx) as [b|];
    cbn [mbind option_bind] in Hbody; [|done].
  by apply (bitset_set_wf 40 s i b).
Qed.

(** The KSV [random_ksv] returns is a 40-bit value whose 10-digit
    rendering parses back to it: the KSV the tool prints can be passed
    back to it. *)
Theorem random_ksv_round_trip (shuffle : list nat → list nat) :
  Permutation (seq 0 40) (shuffle (seq 0 40)) →
  ∃ ksv h,
    random_ksv shuffle = Some ksv ∧
    bitset_wf 40 ksv = true ∧
    bitset_to_hex 40 ksv = Some h ∧ length h = 10%nat ∧
    ksv_string_to_bitset 40 h = Some ksv.
Proof.
  intros Hperm.
  destruct (shuffled_indices shuffle Hperm) as [Hlen Hidx].
  destruct (shuffle_loop (shuffle (seq 0 40)) 40) as (v & Hv & _);
    [lia | lia | done |].
  assert (Hwf : bitset_wf 40 v = true) by exact (random_ksv_wf shuffle v Hv).
  destruct (hex_round_trip 40 10 v) as (h & Hh & Hlh & _ & _ & Hp);
    [reflexivity | lia | done |].
  exists v, h. by repeat split.
Qed.

Lemma random_ksv_round_trip_witness :
  ∃ ksv h,
    random_ksv (@rev nat) = Some ksv ∧
    bitset_wf 40 ksv = true ∧
    bitset_to_hex 40 ksv = Some h ∧ length h = 10%nat ∧
    ksv_string_to_bitset 40 h = Some ksv.
Proof.
  apply (random_ksv_round_trip (@rev nat)).
  apply Permutation_rev.
Defined.

(** * The text output *)

Example lit_escapes :
  lit "a\nb\qc" = ["a"; nl; "b"; dq; "c"]%char ∧
  nat_of_ascii nl = 10%nat ∧ nat_of_ascii dq = 34%nat.
Proof. repeat split; reflexivity. Qed.

Example get_key_array_six :
  get_key_array 6 [0; 1; 2; 3; 4; 0xffffffffffffff]
  = Some (lit ("00000000000000 00000000000001 00000000000002 " ++
               "00000000000003 00000000000004\nffffffffffffff ")).
Proof. vm_compute. reflexivity. Qed.

Example formatted_not_found h : hdcp.formatted h NOT_FOUND = Some [].
Proof. reflexivity. Qed.

Lemma bitset_to_hex_56 x : bitset_to_hex 56 x = Some (hex_of 56 x).
Proof. apply (bitset_to_hex_value 56 14); [reflexivity | lia]. Qed.

Lemma bitset_to_hex_40 x : bitset_to_hex 40 x = Some (hex_of 40 x).
Proof. apply (bitset_to_hex_value 40 10); [reflexivity | lia]. Qed.

Lemma hex_of_length bits x : length (hex_of bits x) = (bits / 4)%nat.
Proof. unfold hex_of. by rewrite length_map, length_seq. Qed.

(** A loop that appends one rendered block per index. *)
Lemma for_loop_append {B} (g : nat → option B) (F : nat → B → list ascii)
    (w : nat → B) l r0 :
  (∀ i, i ∈ l → g i = Some (w i)) →
  for_loop l (λ i result, b ← g i; Some (result ++ F i b)) r0
  = Some (r0 ++ concat (map (λ i, F i (w i)) l)).
Proof.
  revert r0. induction l as [|i l IH]; intros r0 Hg.
  - cbn [for_loop map concat]. by rewrite app_nil_r.
  - cbn [for_loop map concat]. rewrite Hg by (by left).
    cbn [mbind option_bind]. rewrite IH by (intros; apply Hg; by right).
    by rewrite app_assoc.
Qed.

Lemma for_each_append {A B} (g : A → option B) (F : B → list ascii)
    (w : A → B) xs r0 :
  (∀ x, x ∈ xs → g x = Some (w x)) →
  for_each xs (λ x result, b ← g x; Some (result ++ F b)) r0
  = Some (r0 ++ concat (map (λ x, F (w x)) xs)).
Proof.
  revert r0. induction xs as [|x xs IH]; intros r0 Hg.
  - cbn [for_each map concat]. by rewrite app_nil_r.
  - cbn [for_each map concat]. rewrite Hg by (by left).
    cbn [mbind option_bind]. rewrite IH by (intros; apply Hg; by right).
    by rewrite app_assoc.
Qed.

(** Blocks of one width, laid end to end: block [i] starts at [w * i]. *)
Lemma concat_block {A} (w : nat) (bs : list (list A)) i b :
  Forall (λ b, length b = w) bs →
  bs !! i = Some b →
  take w (drop (w * i) (concat bs)) = b.
Proof.
  intros Hw. revert i. induction Hw as [|b0 bs Hb0 Hw IH]; intros i Hi;
    [done|].
  destruct i as [|i]; cbn [lookup list_lookup] in Hi; cbn [concat].
  - injection Hi as ->. rewrite Nat.mul_0_r, drop_0.
    by rewrite take_app_length' by done.
  - replace (w * S i)%nat with (length b0 + w * i)%nat by lia.
    rewrite drop_app_add'; [|done]. by apply IH.
Qed.

Lemma concat_block_length {A} (w : nat) (bs : list (list A)) :
  Forall (λ b, length b = w) bs → length (concat bs) = (w * length bs)%nat.
Proof.
  induction 1 as [|b bs Hb _ IH]; cbn [concat length]; [lia|].
  rewrite length_app, IH. lia.
Qed.

(** [get_key_array] as a sequence of blocks: the rendering of an entry
    and the separator after it. *)
Lemma get_key_array_blocks N arr :
  (N ≤ length arr)%nat →
  get_key_array N arr
  = Some (concat (map (λ i, hex_of 56 (default 0 (arr !! i)) ++
                            (if ((i + 1) mod 5 =? 0)%nat
                             then lit "\n" else lit " "))
                      (seq 0 N))).
Proof.
  intros HN. unfold get_key_array.
  rewrite (for_loop_ext _ _
    (λ i result,
       b ← (x ← arr !! i; bitset_to_hex 56 x);
       Some (result ++ (b ++ (if ((i + 1) mod 5 =? 0)%nat
                              then lit "\n" else lit " "))))).
  - rewrite (for_loop_append _ _ (λ i, hex_of 56 (default 0 (arr !! i))));
      [done|].
    intros i Hi%elem_of_seq.
    destruct (lookup_lt_is_Some_2 arr i) as [x ->]; [lia|].
    cbn [mbind option_bind default from_option id].
    apply bitset_to_hex_56.
  - intros i result _.
    destruct (arr !! i) as [x|]; cbn [mbind option_bind]; [|done].
    destruct (bitset_to_hex 56 x) as [h|]; cbn [mbind option_bind]; [|done].
    destruct ((i + 1) mod 5 =? 0)%nat; by rewrite app_assoc.
Qed.

(** [get_key_array] writes a table of fixed width: entry [i] of the array
    takes the 14 characters from position [15*i] on, which are its
    rendering and parse back to it, and is followed by a newline when
    [i + 1] is a multiple of 5 and by a space otherwise. *)
Theorem get_key_array_layout (N : nat) (arr : list Z) :
  length arr = N →
  ∃ out,
    get_key_array N arr = Some out ∧
    length out = (15 * N)%nat ∧
    ∀ i x, arr !! i = Some x →
      bitset_to_hex 56 x = Some (take 14 (drop (15 * i) out)) ∧
      out !! (15 * i + 14)%nat
      = Some (if ((i + 1) mod 5 =? 0)%nat then nl else " "%char) ∧
      (bitset_wf 56 x = true →
       ksv_string_to_bitset 56 (take 14 (drop (15 * i) out)) = Some x).
Proof.
  intros Hlen.
  set (block := λ i : nat,
         hex_of 56 (default 0 (arr !! i)) ++
         (if ((i + 1) mod 5 =? 0)%nat then lit "\n" else lit " ")).
  assert (Hblocks : Forall (λ b, length b = 15%nat) (map block (seq 0 N))).
  { apply Forall_forall. intros b (i & -> & _)%list_elem_of_fmap.
    unfold block. rewrite length_app, hex_of_length.
    by destruct ((i + 1) mod 5 =? 0)%nat. }
  eexists. split; [apply get_key_array_blocks; lia|].
  fold block. split.
  - by rewrite (concat_block_length 15), length_map, length_seq.
  - intros i x Hx.
    assert (Hi : (i < N)%nat) by (apply lookup_lt_Some in Hx; lia).
    assert (Hb : take 15 (drop (15 * i) (concat (map block (seq 0 N))))
                 = block i).
    { apply concat_block; [done|].
      change (map block (seq 0 N)) with (block <$> seq 0 N).
      by rewrite list_lookup_fmap, lookup_seq_lt. }
    assert (Hhex : take 14 (drop (15 * i) (concat (map block (seq 0 N))))
                   = hex_of 56 x).
    { transitivity
        (take 14 (take 15 (drop (15 * i) (concat (map block (seq 0 N))))));
        [by rewrite take_take|].
      rewrite Hb. unfold block. rewrite Hx.
      cbn [default from_option id].
      by rewrite take_app_length' by (by rewrite hex_of_length). }
    rewrite Hhex. split; [apply bitset_to_hex_56|]. split.
    + rewrite <- lookup_drop, <- (lookup_take_lt _ 15) by lia.
      rewrite Hb. unfold block. rewrite Hx. cbn [default from_option id].
      rewrite lookup_app_r by (rewrite hex_of_length; cbn; lia).
      rewrite hex_of_length.
      by destruct ((i + 1) mod 5 =? 0)%nat.
    + intros Hwf.
      destruct (hex_round_trip 56 14 x) as (h & Hh & _ & _ & _ & Hp);
        [reflexivity | lia | done |].
      rewrite bitset_to_hex_56 in Hh. by injection Hh as <-.
Qed.

Lemma get_key_array_layout_witness :
  ∃ out,
    get_key_array 5 [1; 2; 3; 4; 0xffffffffffffff] = Some out ∧
    length out = (15 * 5)%nat ∧
    ∀ i x, [1; 2; 3; 4; 0xffffffffffffff] !! i = Some x →
      bitset_to_hex 56 x = Some (take 14 (drop (15 * i) out)) ∧
      out !! (15 * i + 14)%nat
      = Some (if ((i + 1) mod 5 =? 0)%nat then nl else " "%char) ∧
      (bitset_wf 56 x = true →
       ksv_string_to_bitset 56 (take 14 (drop (15 * i) out)) = Some x).
Proof.
  apply (get_key_array_layout 5 [1; 2; 3; 4; 0xffffffffffffff]).
  reflexivity.
Defined.

(** ** [string_to_fot] *)

Lemma str_eq_spec s l : str_eq s l = true ↔ s = list_ascii_of_string l.
Proof.
  unfold str_eq. rewrite String.eqb_eq. split.
  - intros <-. by rewrite list_ascii_of_string_of_list_ascii.
  - intros ->. by rewrite string_of_list_ascii_of_string.
Qed.

Lemma string_to_fot_name s :
  string_to_fot s ≠ NOT_FOUND →
  Some s = list_ascii_of_string <$> fot_name (string_to_fot s).
Proof.
  unfold string_to_fot.
  repeat match goal with
  | |- context [str_eq s ?l] =>
      destruct (str_eq s l) eqn:Heq;
        [apply str_eq_spec in Heq; by rewrite Heq | clear Heq]
  end.
  done.
Qed.

(** [string_to_fot] is the inverse of the table of format names: a string
    selects a format exactly when it is the name of that format, in lower
    case; every format has one name, and every other string gives
    [NOT_FOUND]. *)
Theorem string_to_fot_inverse (s : list ascii) (fmt : formatted_out_type) :
  fmt ≠ NOT_FOUND →
  string_to_fot s = fmt ↔ Some s = list_ascii_of_string <$> fot_name fmt.
Proof.
  intros Hfmt. split.
  - intros <-. by apply string_to_fot_name.
  - intros Hs. destruct fmt; cbn in Hs; try done;
      injection Hs as ->; reflexivity.
Qed.

Lemma string_to_fot_inverse_witness :
  string_to_fot (list_ascii_of_string "yaml_full") = YAML_FULL ↔
  Some (list_ascii_of_string "yaml_full")
  = list_ascii_of_string <$> fot_name YAML_FULL.
Proof.
  apply (string_to_fot_inverse (list_ascii_of_string "yaml_full") YAML_FULL).
  discriminate.
Defined.

Example string_to_fot_case_sensitive :
  string_to_fot (list_ascii_of_string "JSON") = NOT_FOUND ∧
  string_to_fot (list_ascii_of_string "json ") = NOT_FOUND ∧
  string_to_fot [] = NOT_FOUND.
Proof. repeat split; reflexivity. Qed.

(** ** [hdcp::formatted] *)

Lemma line_items_value arr r0 :
  line_items arr r0
  = Some (r0 ++ concat (map (λ x, hex_of 56 x ++ lit " ") arr)).
Proof.
  apply (for_each_append (bitset_to_hex 56) (λ h, h ++ lit " ") (hex_of 56)).
  intros x _. apply bitset_to_hex_56.
Qed.

Lemma yaml_items_value arr r0 :
  yaml_items arr r0
  = Some (r0 ++ concat (map (λ x, lit "  - " ++ hex_of 56 x ++ lit "\n") arr)).
Proof.
  apply (for_each_append (bitset_to_hex 56)
           (λ h, lit "  - " ++ h ++ lit "\n") (hex_of 56)).
  intros x _. apply bitset_to_hex_56.
Qed.

Lemma xml_items_value arr r0 :
  xml_items arr r0
  = Some (r0 ++ concat (map (λ x, lit "        <item>" ++ hex_of 56 x
                                  ++ lit "</item>" ++ lit "\n") arr)).
Proof.
  apply (for_each_append (bitset_to_hex 56)
           (λ h, lit "        <item>" ++ h ++ lit "</item>" ++ lit "\n")
           (hex_of 56)).
  intros x _. apply bitset_to_hex_56.
Qed.

Lemma toml_items_value arr r0 :
  toml_items arr r0
  = Some (r0 ++ concat (map (λ x, lit "  \q" ++ hex_of 56 x ++ lit "\q,\n")
                            arr)).
Proof.
  apply (for_each_append (bitset_to_hex 56)
           (λ h, lit "  \q" ++ h ++ lit "\q,\n") (hex_of 56)).
  intros x _. apply bitset_to_hex_56.
Qed.

(** The loop of the JSON formats from index [a] on: the items of [xs],
    with [",\n"] between two of them and ["\n"] after the last. *)
Lemma json_items_from size (arr : list Z) a (xs : list Z) r0 :
  xs ≠ [] →
  (∀ i x, xs !! i = Some x → arr !! (a + i)%nat = Some x) →
  size = (a + length xs)%nat →
  for_loop (seq a (length xs)) (λ i result,
    x ← arr !! i;
    h ← bitset_to_hex 56 x;
    let result := result ++ (lit "        \q" ++ h ++ lit "\q") in
    let result :=
      if negb (i =? size - 1)%nat then result ++ lit "," else result in
    Some (result ++ lit "\n")) r0
  = Some (r0 ++ join (lit ",\n")
                  (map (λ x, lit "        \q" ++ hex_of 56 x ++ lit "\q") xs)
             ++ lit "\n").
Proof.
  revert a r0. induction xs as [|x xs IH]; intros a r0 Hne Harr Hsize;
    [done|].
  cbn [length seq for_loop].
  replace (arr !! a) with (Some x)
    by (symmetry; rewrite <- (Nat.add_0_r a); by apply Harr).
  cbn [mbind option_bind]. rewrite bitset_to_hex_56.
  cbn [mbind option_bind]. cbv zeta.
  destruct xs as [|y xs].
  - cbn [length seq for_loop map join concat] in *.
    replace (a =? size - 1)%nat with true
      by (symmetry; apply Nat.eqb_eq; lia).
    cbn [negb]. by rewrite app_nil_r, <- !app_assoc.
  - replace (a =? size - 1)%nat with false
      by (symmetry; apply Nat.eqb_neq; cbn [length] in Hsize; lia).
    cbn [negb].
    rewrite (IH (S a)); [| done | | cbn [length] in *; lia].
    + f_equal. cbn [map join concat]. rewrite <- !app_assoc.
      do 4 f_equal.
    + intros i z Hz. replace (S a + i)%nat with (a + S i)%nat by lia.
      by apply Harr.
Qed.

Lemma json_items_value arr r0 :
  arr ≠ [] →
  json_items (length arr) arr r0
  = Some (r0 ++ join (lit ",\n")
                  (map (λ x, lit "        \q" ++ hex_of 56 x ++ lit "\q") arr)
             ++ lit "\n").
Proof.
  intros Hne. unfold json_items.
  by apply (json_items_from (length arr) arr 0 arr r0).
Qed.

Lemma get_key_array_Some N arr :
  (N ≤ length arr)%nat → is_Some (get_key_array N arr).
Proof. intros HN. rewrite get_key_array_blocks by done. by eexists. Qed.

(** The object the constructor builds on a matrix of 1600 entries. *)
Lemma new_spec key ksv :
  length key = 1600%nat →
  ∃ src snk,
    hdcp.new key ksv = Some (hdcp.Build key ksv src snk) ∧
    generate_source ksv key = Some src ∧ generate_sink ksv key = Some snk ∧
    length src = 40%nat ∧ length snk = 40%nat.
Proof.
  intros Hlen. unfold hdcp.new.
  assert (Hs : is_Some (generate_source ksv key)).
  { rewrite generate_source_derive. apply derive_total. intros. lia. }
  assert (Hk : is_Some (generate_sink ksv key)).
  { rewrite generate_sink_derive. apply derive_total. intros. lia. }
  destruct Hs as [src Hs], Hk as [snk Hk]. exists src, snk.
  rewrite Hs, Hk. cbn [mbind option_bind]. repeat split.
  - rewrite generate_source_derive in Hs.
    apply (derive_entries ksv key (λ i z, z * 40 + i)%nat);
      [intros; cbv beta; lia | done].
  - rewrite generate_sink_derive in Hk.
    apply (derive_entries ksv key (λ i z, i * 40 + z)%nat);
      [intros; cbv beta; lia | done].
Qed.

Lemma json_items_size size arr r0 :
  length arr = size → size ≠ 0%nat →
  json_items size arr r0
  = Some (r0 ++ join (lit ",\n")
                  (map (λ x, lit "        \q" ++ hex_of 56 x ++ lit "\q") arr)
             ++ lit "\n").
Proof.
  intros <- Hne. apply json_items_value. by destruct arr.
Qed.

Ltac formatted_steps :=
  unfold hdcp.formatted;
  cbn [hdcp.ksv hdcp.source hdcp.sink hdcp.hdcp_key]; cbv zeta;
  repeat (first
    [ rewrite bitset_to_hex_40
    | rewrite get_key_array_blocks by lia
    | rewrite json_items_size by (done || lia)
    | rewrite line_items_value
    | rewrite yaml_items_value
    | rewrite xml_items_value
    | rewrite toml_items_value ];
    cbn [mbind option_bind]).

(** On a matrix of 1600 entries the constructor builds an object, and
    [formatted] returns a text for it in every output format: no format
    reads the keys or the matrix out of range. *)
Theorem formatted_total (key : list Z) (ksv : Z) :
  length key = 1600%nat →
  ∃ h, hdcp.new key ksv = Some h ∧
       ∀ fmt, is_Some (hdcp.formatted h fmt).
Proof.
  intros Hlen.
  destruct (new_spec key ksv Hlen) as (src & snk & Hnew & _ & _ & Hs & Hk).
  eexists. split; [exact Hnew|].
  intros fmt. destruct fmt; formatted_steps; by eexists.
Qed.

Lemma formatted_total_witness :
  ∃ h, hdcp.new (replicate 1600 1) 0x00000fffff = Some h ∧
       ∀ fmt, is_Some (hdcp.formatted h fmt).
Proof.
  apply (formatted_total (replicate 1600 1) 0x00000fffff).
  reflexivity.
Defined.

(** The JSON document: the KSV, then the source and the sink key as
    arrays of strings, the items of an array separated by commas with no
    comma after the last one. *)
Theorem formatted_json (key : list Z) (ksv : Z) (h : hdcp.t) :
  length key = 1600%nat →
  hdcp.new key ksv = Some h →
  hdcp.formatted h JSON
  = Some (lit "{\n" ++
          lit "    \qksv\q:\q" ++ hex_of 40 ksv ++ lit "\q,\n" ++
          lit "    \qsource\q:\n" ++
          lit "    [\n" ++
          join (lit ",\n")
            (map (λ x, lit "        \q" ++ hex_of 56 x ++ lit "\q")
                 (hdcp.source h)) ++ lit "\n" ++
          lit "    ],\n" ++
          lit "    \qsink\q:\n" ++
          lit "    [\n" ++
          join (lit ",\n")
            (map (λ x, lit "        \q" ++ hex_of 56 x ++ lit "\q")
                 (hdcp.sink h)) ++ lit "\n" ++
          lit "    ]\n" ++
          lit "}\n").
Proof.
  intros Hlen Hh.
  destruct (new_spec key ksv Hlen) as (src & snk & Hnew & _ & _ & Hs & Hk).
  assert (h = hdcp.Build key ksv src snk) as -> by congruence.
  formatted_steps. apply (f_equal Some).
  cbn [app]. rewrite <- !app_assoc. reflexivity.
Qed.

Lemma formatted_json_witness :
  ∃ h, hdcp.new (replicate 1600 1) 0x00000fffff = Some h ∧
  hdcp.formatted h JSON
  = Some (lit "{\n" ++
          lit "    \qksv\q:\q" ++ hex_of 40 0x00000fffff ++ lit "\q,\n" ++
          lit "    \qsource\q:\n" ++
          lit "    [\n" ++
          join (lit ",\n")
            (map (λ x, lit "        \q" ++ hex_of 56 x ++ lit "\q")
                 (hdcp.source h)) ++ lit "\n" ++
          lit "    ],\n" ++
          lit "    \qsink\q:\n" ++
          lit "    [\n" ++
          join (lit ",\n")
            (map (λ x, lit "        \q" ++ hex_of 56 x ++ lit "\q")
                 (hdcp.sink h)) ++ lit "\n" ++
          lit "    ]\n" ++
          lit "}\n").
Proof.
  eexists. split; [vm_compute; reflexivity|].
  apply (formatted_json (replicate 1600 1) 0x00000fffff).
  - reflexivity.
  - vm_compute. reflexivity.
Defined.

(** The full formats only add the matrix to what the plain formats
    print. *)
Theorem full_formats_extend (key : list Z) (ksv : Z) (h : hdcp.t) :
  length key = 1600%nat →
  hdcp.new key ksv = Some h →
  ∃ text yaml toml table,
    hdcp.formatted h TEXT_INFORMATIONAL = Some text ∧
    get_key_array 1600 key = Some table ∧
    hdcp.formatted h TEXT_FULL
    = Some (text ++ lit "\n" ++ lit "HDCP key:\n" ++ table) ∧
    hdcp.formatted h YAML = Some yaml ∧
    hdcp.formatted h YAML_FULL
    = Some (yaml ++ lit "hdcp_key:\n" ++
            concat (map (λ x, lit "  - " ++ hex_of 56 x ++ lit "\n") key)) ∧
    hdcp.formatted h TOML = Some toml ∧
    hdcp.formatted h TOML_FULL
    = Some (toml ++ lit "hdcp_key = [\n" ++
            concat (map (λ x, lit "  \q" ++ hex_of 56 x ++ lit "\q,\n") key)
            ++ lit "]\n").
Proof.
  intros Hlen Hh.
  destruct (new_spec key ksv Hlen) as (src & snk & Hnew & _ & _ & Hs & Hk).
  assert (h = hdcp.Build key ksv src snk) as -> by congruence.
  do 4 eexists.
  split; [formatted_steps; reflexivity|].
  split; [by rewrite get_key_array_blocks by lia|].
  split; [formatted_steps; apply (f_equal Some);
          rewrite <- !app_assoc; reflexivity|].
  split; [formatted_steps; reflexivity|].
  split; [formatted_steps; apply (f_equal Some);
          rewrite <- !app_assoc; reflexivity|].
  split; [formatted_steps; reflexivity|].
  formatted_steps. apply (f_equal Some). rewrite <- !app_assoc. reflexivity.
Qed.

Lemma full_formats_extend_witness :
  ∃ h text table,
    hdcp.new (replicate 1600 1) 0x00000fffff = Some h ∧
    hdcp.formatted h TEXT_INFORMATIONAL = Some text ∧
    get_key_array 1600 (replicate 1600 1) = Some table ∧
    hdcp.formatted h TEXT_FULL
    = Some (text ++ lit "\n" ++ lit "HDCP key:\n" ++ table).
Proof.
  destruct (new_spec (replicate 1600 1) 0x00000fffff eq_refl)
    as (src & snk & Hnew & _).
  destruct (full_formats_extend (replicate 1600 1) 0x00000fffff _
              eq_refl Hnew)
    as (text & _ & _ & table & H1 & H2 & H3 & _).
  exists (hdcp.Build (replicate 1600 1) 0x00000fffff src snk), text, table.
  exact (conj Hnew (conj H1 (conj H2 H3))).
Defined.

(** ** [main] *)

Lemma main_loop_ksv key ver s rest ksv out :
  main_loop key ver ((char_code "k", s) :: rest) ksv out
  = main_loop key ver rest (hex_value s mod 2 ^ 40) out.
Proof.
  cbn [main_loop]. change (char_code "k" =? -1) with false.
  rewrite Z.eqb_refl, ksv_string_to_bitset_value.
  cbn [mbind option_bind]. by rewrite to_bitset_le_64 by lia.
Qed.

Lemma main_loop_out key ver s rest ksv out :
  string_to_fot s ≠ NOT_FOUND →
  main_loop key ver ((char_code "o", s) :: rest) ksv out
  = main_loop key ver rest ksv (string_to_fot s).
Proof.
  intros Hs. cbn [main_loop]. change (char_code "o" =? -1) with false.
  change (char_code "o" =? char_code "k") with false.
  rewrite Z.eqb_refl. cbv zeta. by destruct (string_to_fot s).
Qed.


Lemma main_loop_ksv_only key ver pre ksv out :
  Forall (λ o : Z * list ascii, o.1 = char_code "k") pre →
  ∃ ksv', ∀ rest,
    main_loop key ver (pre ++ rest) ksv out
    = main_loop key ver rest ksv' out.
Proof.
  intros Hpre. revert ksv.
  induction Hpre as [|[opt s] pre Ho _ IH]; intros ksv.
  - by exists ksv.
  - cbn [fst] in Ho. subst opt.
    destruct (IH (hex_value s mod 2 ^ 40)) as (ksv' & H).
    exists ksv'. intros rest.
    by rewrite <- app_comm_cons, main_loop_ksv.
Qed.

Lemma random_ksv_Some shuffle :
  Permutation (seq 0 40) (shuffle (seq 0 40)) → is_Some (random_ksv shuffle).
Proof.
  intros Hperm.
  destruct (shuffled_indices shuffle Hperm) as [Hlen Hidx].
  destruct (shuffle_loop (shuffle (seq 0 40)) 40) as (v & Hv & _);
    [lia | lia | done |].
  by exists v.
Qed.

(** The KSV of the last [-k] option is used, whatever the string: it is
    never checked (neither its characters nor its Hamming weight), the
    process ends with status 0, and what it prints is the
    [text_informational] output for the hexadecimal value of the string
    truncated to 40 bits, which starts with the KSV line. *)
Theorem main_ksv_option (shuffle : list nat → list nat) (key : list Z)
    (ver : list ascii) (pre : list (Z * list ascii)) (s : list ascii) :
  Permutation (seq 0 40) (shuffle (seq 0 40)) →
  length key = 1600%nat →
  Forall (λ o : Z * list ascii, o.1 = char_code "k") pre →
  ∃ h text rest,
    main shuffle key ver (pre ++ [(char_code "k", s)]) = Some (text, 0) ∧
    hdcp.new key (hex_value s mod 2 ^ 40) = Some h ∧
    hdcp.formatted h TEXT_INFORMATIONAL = Some text ∧
    text = lit "ksv: " ++ hex_of 40 (hex_value s mod 2 ^ 40) ++ lit "\n\n"
           ++ rest.
Proof.
  intros Hperm Hlen Hpre.
  destruct (random_ksv_Some shuffle Hperm) as [ksv0 Hk0].
  destruct (main_loop_ksv_only key ver pre ksv0 TEXT_INFORMATIONAL Hpre)
    as (ksv' & Hloop).
  destruct (new_spec key (hex_value s mod 2 ^ 40) Hlen)
    as (src & snk & Hnew & _ & _ & Hs & Hk).
  do 3 eexists.
  split; [|split; [exact Hnew|]].
  - unfold main. rewrite Hk0. cbn [mbind option_bind]. cbv zeta.
    rewrite Hloop, main_loop_ksv. cbn [main_loop].
    unfold main_after_loop. rewrite Hnew.
    cbn [mbind option_bind]. formatted_steps. reflexivity.
  - split; [formatted_steps; reflexivity|].
    cbn [app]. by rewrite <- !app_assoc.
Qed.

Lemma main_ksv_option_witness :
  ∃ h text rest,
    main (@rev nat) (replicate 1600 1) (lit "1.0")
      ([(char_code "k", lit "00000fffff")] ++ [(char_code "k", lit "XYZ")])
    = Some (text, 0) ∧
    hdcp.new (replicate 1600 1) (hex_value (lit "XYZ") mod 2 ^ 40) = Some h ∧
    hdcp.formatted h TEXT_INFORMATIONAL = Some text ∧
    text = lit "ksv: " ++ hex_of 40 (hex_value (lit "XYZ") mod 2 ^ 40)
           ++ lit "\n\n" ++ rest.
Proof.
  apply (main_ksv_option (@rev nat) (replicate 1600 1) (lit "1.0")
           [(char_code "k", lit "00000fffff")] (lit "XYZ")).
  - apply Permutation_rev.
  - reflexivity.
  - repeat constructor.
Defined.



(** ** Which KSVs [random_ksv] returns *)

(** The bits of the KSV [random_ksv] returns. *)
Lemma random_ksv_bits shuffle :
  Permutation (seq 0 40) (shuffle (seq 0 40)) →
  ∃ v, random_ksv shuffle = Some v ∧
       bitset_wf 40 v = true ∧
       ∀ j, (j < 40)%nat →
         Z.testbit v (Z.of_nat j)
         = bool_decide (default 0%nat (shuffle (seq 0 40) !! j) < 20)%nat.
Proof.
  intros Hperm.
  destruct (shuffled_indices shuffle Hperm) as [Hlen Hidx].
  destruct (shuffle_loop (shuffle (seq 0 40)) 40) as (v & Hv & Hbits);
    [lia | lia | done |].
  exists v. split; [exact Hv|]. split; [by apply (random_ksv_wf shuffle)|].
  intros j Hj. rewrite Hbits.
  by rewrite (bool_decide_eq_true_2 (j < 40)%nat) by lia.
Qed.

Lemma random_ksv_count shuffle :
  Permutation (seq 0 40) (shuffle (seq 0 40)) →
  ∃ v, random_ksv shuffle = Some v ∧ bitset_count 40 v = 20%nat.
Proof.
  intros Hperm.
  destruct (shuffled_indices shuffle Hperm) as [Hlen Hidx].
  destruct (random_ksv_bits shuffle Hperm) as (v & Hv & _ & Hbits).
  exists v. split; [exact Hv|].
  unfold bitset_count.
  rewrite (filter_length_map _ (λ idx, (idx < 20)%nat)
             (λ j, default 0%nat (shuffle (seq 0 40) !! j))).
  - rewrite <- Hlen at 1. rewrite list_as_lookups.
    rewrite <- Hperm. reflexivity.
  - intros j Hj%elem_of_seq. rewrite Hbits by lia.
    apply bool_decide_eq_true.
Qed.

(** Two values of a bitset with the same bits are equal. *)
Lemma bitset_ext bits a b :
  bitset_wf bits a = true → bitset_wf bits b = true →
  (∀ j, (j < bits)%nat → Z.testbit a (Z.of_nat j) = Z.testbit b (Z.of_nat j)) →
  a = b.
Proof.
  unfold bitset_wf.
  intros [Ha0 Ha]%andb_true_iff [Hb0 Hb]%andb_true_iff Hbits.
  apply Z.leb_le in Ha0, Hb0. apply Z.ltb_lt in Ha, Hb.
  assert (Hhigh : ∀ v, 0 <= v < 2 ^ Z.of_nat bits →
            ∀ n, Z.of_nat bits <= n → Z.testbit v n = false).
  { intros v Hv n Hn. destruct (decide (v = 0)) as [->|]; [apply Z.bits_0|].
    apply Z.bits_above_log2; [lia|].
    apply Z.lt_le_trans with (Z.of_nat bits); [|done].
    apply Z.log2_lt_pow2; lia. }
  apply Z.bits_inj'. intros n Hn.
  destruct (decide (n < Z.of_nat bits)) as [Hlt|Hge].
  - rewrite <- (Z2Nat.id n) by done. apply Hbits. lia.
  - by rewrite !Hhigh by lia.
Qed.

Lemma index_of_self_map l :
  NoDup l → map (λ x, index_of x l) l = seq 0 (length l).
Proof.
  induction 1 as [|y l Hy Hnd IH]; [done|].
  cbn [map length seq index_of]. rewrite decide_True by done. f_equal.
  rewrite <- seq_shift, <- IH, map_map.
  apply map_ext_in. intros x Hx%list_elem_of_In.
  cbn [index_of]. rewrite decide_False; [done|]. by intros ->.
Qed.

Lemma index_of_app_lt x l1 l2 :
  (index_of x (l1 ++ l2) < length l1)%nat ↔ x ∈ l1.
Proof.
  induction l1 as [|y l1 IH]; cbn [app index_of length].
  - split; [lia | by intros ?%not_elem_of_nil].
  - destruct (decide (x = y)) as [->|Hne].
    + split; [intros; by left | lia].
    + rewrite <- Nat.succ_lt_mono, IH. split.
      * by right.
      * intros [?|?]%elem_of_cons; done.
Qed.

Lemma random_ksv_copy shuffle :
  random_ksv shuffle = copy_shuffled (shuffle (seq 0 40)).
Proof. reflexivity. Qed.

(** The copy loop of [random_ksv] maps the permutations of the 40 bit
    positions onto the 40-bit values of Hamming weight 20: a value is the
    result of the loop for some permutation exactly when it has weight 20.
    Which permutations [std::shuffle] produces from the one seed of its
    generator is not part of the model; the statement is about the loop,
    not about how many KSVs a run of the tool can print. *)
Theorem copy_shuffled_image (v : Z) :
  (∃ indices,
     Permutation (seq 0 40) indices ∧ copy_shuffled indices = Some v) ↔
  bitset_wf 40 v = true ∧ bitset_count 40 v = 20%nat.
Proof.
  split.
  - intros (indices & Hperm & Hv).
    change (copy_shuffled indices) with (random_ksv (λ _, indices)) in Hv.
    split; [by apply (random_ksv_wf (λ _, indices))|].
    destruct (random_ksv_count (λ _, indices) Hperm) as (v' & Hv' & Hcount).
    congruence.
  - intros [Hwf Hcount].
    set (P := λ j : nat, Z.testbit v (Z.of_nat j) = true).
    set (sigma := filter P (seq 0 40) ++ filter (λ j, ¬ P j) (seq 0 40)).
    assert (Hsigma : Permutation sigma (seq 0 40))
      by apply filter_app_complement.
    set (indices := map (λ j, index_of j sigma) (seq 0 40)).
    assert (Hperm : Permutation (seq 0 40) indices).
    { unfold indices. rewrite <- Hsigma at 2.
      rewrite index_of_self_map by (rewrite Hsigma; apply NoDup_seq).
      by rewrite Hsigma, length_seq. }
    exists indices. split; [exact Hperm|].
    change (copy_shuffled indices) with (random_ksv (λ _, indices)).
    destruct (random_ksv_bits (λ _, indices) Hperm)
      as (r & Hr & Hrwf & Hbits).
    rewrite Hr. f_equal. apply (bitset_ext 40); [done | done |].
    intros j Hj. rewrite Hbits by done.
    unfold indices.
    change (map ?f ?l) with (f <$> l).
    rewrite list_lookup_fmap, lookup_seq_lt by done.
    cbn [fmap option_fmap option_map default from_option id Nat.add].
    rewrite <- Hcount. unfold bitset_count. fold P.
    destruct (Z.testbit v (Z.of_nat j)) eqn:Hb.
    + apply bool_decide_eq_true. apply index_of_app_lt.
      apply list_elem_of_filter. split; [exact Hb | apply elem_of_seq; lia].
    + apply bool_decide_eq_false. unfold sigma. rewrite index_of_app_lt.
      intros [HP _]%list_elem_of_filter. unfold P in HP. congruence.
Qed.

Example copy_shuffled_rev :
  copy_shuffled (rev (seq 0 40)) = Some 0xfffff00000.
Proof. vm_compute. reflexivity. Qed.

(** ** The default run *)

Lemma main_loop_out_only key ver pre ksv out :
  Forall (λ o : Z * list ascii,
            o.1 = char_code "o" ∧ string_to_fot o.2 ≠ NOT_FOUND) pre →
  ∀ rest,
    main_loop key ver (pre ++ rest) ksv out
    = main_loop key ver rest ksv
        (default out (string_to_fot <$> last (pre.*2))).
Proof.
  intros Hpre. revert out.
  induction Hpre as [|[opt s] pre [Ho Hs] _ IH]; intros out rest; [done|].
  cbn [fst snd] in Ho, Hs. subst opt.
  rewrite <- app_comm_cons, main_loop_out, IH by done. f_equal.
  cbn [fmap list_fmap snd]. rewrite last_cons.
  by destruct (last pre.*2).
Qed.

(** Without a [-k] option the KSV is the random one, of Hamming weight 20;
    the format is that of the last [-o] option, [text_informational] when
    there is none; the keys derived from that KSV are printed in that
    format and the status is 0. *)
Theorem main_default (shuffle : list nat → list nat) (key : list Z)
    (ver : list ascii) (opts : list (Z * list ascii)) :
  Permutation (seq 0 40) (shuffle (seq 0 40)) →
  length key = 1600%nat →
  Forall (λ o : Z * list ascii,
            o.1 = char_code "o" ∧ string_to_fot o.2 ≠ NOT_FOUND) opts →
  ∃ ksv h text,
    random_ksv shuffle = Some ksv ∧
    bitset_count 40 ksv = 20%nat ∧
    hdcp.new key ksv = Some h ∧
    hdcp.formatted h
      (default TEXT_INFORMATIONAL (string_to_fot <$> last (opts.*2)))
    = Some text ∧
    main shuffle key ver opts = Some (text, 0).
Proof.
  intros Hperm Hlen Hopts.
  destruct (random_ksv_count shuffle Hperm) as (ksv & Hksv & Hcount).
  destruct (new_spec key ksv Hlen) as (src & snk & Hnew & _ & _ & Hs & Hk).
  assert (Htext : is_Some (hdcp.formatted (hdcp.Build key ksv src snk)
            (default TEXT_INFORMATIONAL (string_to_fot <$> last (opts.*2))))).
  { destruct (default TEXT_INFORMATIONAL _); formatted_steps; by eexists. }
  destruct Htext as [text Htext].
  exists ksv, (hdcp.Build key ksv src snk), text.
  repeat split; [done | done | done | done |].
  unfold main. rewrite Hksv. cbn [mbind option_bind]. cbv zeta.
  rewrite <- (app_nil_r opts), main_loop_out_only by done.
  cbn [main_loop]. unfold main_after_loop. rewrite Hnew.
  cbn [mbind option_bind]. by rewrite Htext.
Qed.

Lemma main_default_witness :
  ∃ ksv h text,
    random_ksv (@rev nat) = Some ksv ∧
    bitset_count 40 ksv = 20%nat ∧
    hdcp.new (replicate 1600 1) ksv = Some h ∧
    hdcp.formatted h
      (default TEXT_INFORMATIONAL
         (string_to_fot <$> last ([(char_code "o", lit "toml")].*2)))
    = Some text ∧
    main (@rev nat) (replicate 1600 1) (lit "1.0")
      [(char_code "o", lit "toml")] = Some (text, 0).
Proof.
  apply (main_default (@rev nat) (replicate 1600 1) (lit "1.0")
           [(char_code "o", lit "toml")]).
  - apply Permutation_rev.
  - reflexivity.
  - constructor; [split; [reflexivity | discriminate]|]. constructor.
Defined.

(** ** The one-line formats *)

Lemma line_blocks_lookup (arr : list Z) i x :
  arr !! i = Some x →
  take 14 (drop (15 * i)
             (concat (map (λ x, hex_of 56 x ++ lit " ") arr)))
  = hex_of 56 x ∧
  concat (map (λ x, hex_of 56 x ++ lit " ") arr) !! (15 * i + 14)%nat
  = Some " "%char.
Proof.
  intros Hx.
  set (blocks := map (λ x, hex_of 56 x ++ lit " ") arr).
  assert (Hblocks : Forall (λ b, length b = 15%nat) blocks).
  { apply Forall_forall. intros b (y & -> & _)%list_elem_of_fmap.
    by rewrite length_app, hex_of_length. }
  assert (Hb : take 15 (drop (15 * i) (concat blocks))
               = hex_of 56 x ++ lit " ").
  { apply concat_block; [done|]. unfold blocks.
    change (map ?f ?l) with (f <$> l).
    by rewrite list_lookup_fmap, Hx. }
  split.
  - transitivity (take 14 (take 15 (drop (15 * i) (concat blocks))));
      [by rewrite take_take|].
    rewrite Hb. by rewrite take_app_length' by (by rewrite hex_of_length).
  - rewrite <- lookup_drop, <- (lookup_take_lt _ 15) by lia.
    rewrite Hb, lookup_app_r by (rewrite hex_of_length; cbn; lia).
    by rewrite hex_of_length.
Qed.

(** The formats [text_line_source] and [text_line_sink] end to end: for
    an object the constructor builds, the output has 600 characters; for
    every [i] below 40 the 14 characters from position [15*i] on parse to
    entry [i] of the key that [generate_source] (for the sink format,
    [generate_sink]) derives, and a space follows them, also after the
    last entry. *)
Theorem formatted_text_line (key : list Z) (ksv : Z) (h : hdcp.t) :
  length key = 1600%nat →
  hdcp.new key ksv = Some h →
  ∃ src snk out_src out_snk,
    generate_source ksv key = Some src ∧
    generate_sink ksv key = Some snk ∧
    hdcp.formatted h TEXT_LINE_SOURCE = Some out_src ∧
    hdcp.formatted h TEXT_LINE_SINK = Some out_snk ∧
    length out_src = 600%nat ∧ length out_snk = 600%nat ∧
    ∀ i, (i < 40)%nat →
      ksv_string_to_bitset 56 (take 14 (drop (15 * i) out_src)) = src !! i ∧
      ksv_string_to_bitset 56 (take 14 (drop (15 * i) out_snk)) = snk !! i ∧
      out_src !! (15 * i + 14)%nat = Some " "%char ∧
      out_snk !! (15 * i + 14)%nat = Some " "%char.
Proof.
  intros Hlen Hh.
  destruct (new_spec key ksv Hlen) as (src & snk & Hnew & Hsrc & Hsnk & Hs & Hk).
  assert (h = hdcp.Build key ksv src snk) as -> by congruence.
  assert (Hwf : ∀ r, r = src ∨ r = snk →
            Forall (λ x, bitset_wf 56 x = true) r).
  { intros r [->| ->].
    - rewrite generate_source_derive in Hsrc.
      apply (derive_entries ksv key (λ i z, z * 40 + i)%nat);
        [intros; cbv beta; lia | done].
    - rewrite generate_sink_derive in Hsnk.
      apply (derive_entries ksv key (λ i z, i * 40 + z)%nat);
        [intros; cbv beta; lia | done]. }
  assert (Hlength : ∀ r : list Z, length r = 40%nat →
            length (concat (map (λ x, hex_of 56 x ++ lit " ") r)) = 600%nat).
  { intros r Hr. rewrite (concat_block_length 15), length_map, Hr; [done|].
    apply Forall_forall. intros b (y & -> & _)%list_elem_of_fmap.
    by rewrite length_app, hex_of_length. }
  assert (Hparse : ∀ (r : list Z) i,
            Forall (λ x, bitset_wf 56 x = true) r → (i < length r)%nat →
            ksv_string_to_bitset 56
              (take 14 (drop (15 * i)
                 (concat (map (λ x, hex_of 56 x ++ lit " ") r)))) = r !! i
            ∧ concat (map (λ x, hex_of 56 x ++ lit " ") r)
                !! (15 * i + 14)%nat = Some " "%char).
  { intros r i Hr Hi.
    destruct (lookup_lt_is_Some_2 r i Hi) as [x Hx].
    destruct (line_blocks_lookup r i x Hx) as [Htake Hsep].
    split; [|done]. rewrite Htake, Hx.
    destruct (hex_round_trip 56 14 x) as (hx & Hhx & _ & _ & _ & Hp);
      [reflexivity | lia | |].
    - rewrite Forall_forall in Hr. apply Hr.
      apply list_elem_of_lookup. eauto.
    - rewrite bitset_to_hex_56 in Hhx. by injection Hhx as <-. }
  exists src, snk. do 2 eexists.
  split; [done|]. split; [done|].
  split; [formatted_steps; reflexivity|].
  split; [formatted_steps; reflexivity|].
  cbn [app]. split; [by apply Hlength|]. split; [by apply Hlength|].
  intros i Hi.
  destruct (Hparse src i) as [H1 H2]; [apply Hwf; by left | lia |].
  destruct (Hparse snk i) as [H3 H4]; [apply Hwf; by right | lia |].
  done.
Qed.

Lemma formatted_text_line_witness :
  ∃ h src snk out_src out_snk,
    hdcp.new (replicate 1600 1) 0x00000fffff = Some h ∧
    generate_source 0x00000fffff (replicate 1600 1) = Some src ∧
    generate_sink 0x00000fffff (replicate 1600 1) = Some snk ∧
    hdcp.formatted h TEXT_LINE_SOURCE = Some out_src ∧
    hdcp.formatted h TEXT_LINE_SINK = Some out_snk ∧
    length out_src = 600%nat ∧ length out_snk = 600%nat.
Proof.
  destruct (new_spec (replicate 1600 1) 0x00000fffff eq_refl)
    as (src0 & snk0 & Hnew & _).
  destruct (formatted_text_line (replicate 1600 1) 0x00000fffff _
              eq_refl Hnew)
    as (src & snk & o1 & o2 & H1 & H2 & H3 & H4 & H5 & H6 & _).
  exists (hdcp.Build (replicate 1600 1) 0x00000fffff src0 snk0),
    src, snk, o1, o2.
  exact (conj Hnew (conj H1 (conj H2 (conj H3 (conj H4 (conj H5 H6)))))).
Defined.
